(** * gsplat tetrahedron kernels: ray/triangle and ray/tetrahedron
    intersection, the Gaussian line integrals, and their hand-written
    vector-Jacobian products (tetra.cuh, the second document of
    src/gsplat/cuda/csrc/ext.cpp).

    Every routine of the header is a C++ template over its scalar type
    ([template <typename T>]).  The embedding keeps that shape: the routines are
    Rocq functions over an arbitrary scalar type [T] that comes with the
    operations the C++ code applies to it.  Two instances are used below:
    exact rational arithmetic (to run the routines on concrete inputs) and
    real arithmetic (to compare the routines with the closed formulas). *)

From Stdlib Require Import ZArith QArith Qreduction Qabs Bool List Lia.
From Stdlib Require Import Reals Lra.
Import ListNotations.

Set Implicit Arguments.

(** ** The scalar interface *)

(** What the templates need from [T]: conversion of a literal of the source,
    given by the rational number it stands for ([1e-8f], [0.5f], the macro
    [PI], the integer [0] of
    [v_t_entry == 0]), the arithmetic operators, and the two comparisons that
    occur ([<] and [==]; [a > b] is written [b < a]). *)
Class Scalar (T : Type) : Type := {
  lit : Q -> T;
  add : T -> T -> T;
  sub : T -> T -> T;
  mul : T -> T -> T;
  div : T -> T -> T;
  neg : T -> T;
  ltb : T -> T -> bool;
  eqb : T -> T -> bool
}.

(** [sqrtf], [__expf] and [erff] belong to the CUDA math library, not to the
    repository: they are parameters of the integrator routines. *)
Class MathLib (T : Type) : Type := {
  sqrtf : T -> T;
  expf : T -> T;
  erff : T -> T
}.

Declare Scope scalar_scope.
Delimit Scope scalar_scope with S.
Infix "+" := add : scalar_scope.
Infix "-" := sub : scalar_scope.
Infix "*" := mul : scalar_scope.
Infix "/" := div : scalar_scope.
Notation "- x" := (neg x) : scalar_scope.
Infix "<?" := ltb : scalar_scope.
Infix "=?" := eqb : scalar_scope.

(** ** glm vectors and matrices *)

(** [vec3<T>] is [glm::vec<3, T>]. *)
Record vec3 (T : Type) : Type := mkvec3 { vx : T; vy : T; vz : T }.

(** [mat3<T>] is [glm::mat<3, 3, T>], stored as three columns. *)
Record mat3 (T : Type) : Type :=
  mkmat3 { c0 : vec3 T; c1 : vec3 T; c2 : vec3 T }.

Section Glm.
Context {T : Type} `{Scalar T}.
Local Open Scope scalar_scope.

(** [vec3<T>(s)]: the three components are [s]. *)
Definition vsplat (s : T) : vec3 T := mkvec3 s s s.

Definition vadd (a b : vec3 T) : vec3 T :=
  mkvec3 (vx a + vx b) (vy a + vy b) (vz a + vz b).

Definition vsub (a b : vec3 T) : vec3 T :=
  mkvec3 (vx a - vx b) (vy a - vy b) (vz a - vz b).

(** [s * v] (scalar on the left). *)
Definition smulv (s : T) (v : vec3 T) : vec3 T :=
  mkvec3 (s * vx v) (s * vy v) (s * vz v).

(** [v * s] (scalar on the right). *)
Definition vmuls (v : vec3 T) (s : T) : vec3 T :=
  mkvec3 (vx v * s) (vy v * s) (vz v * s).

(** [glm::dot]: the products are summed left to right. *)
Definition dot (a b : vec3 T) : T :=
  vx a * vx b + vy a * vy b + vz a * vz b.

(** [glm::cross]. *)
Definition cross (a b : vec3 T) : vec3 T :=
  mkvec3 (vy a * vz b - vy b * vz a)
         (vz a * vx b - vz b * vx a)
         (vx a * vy b - vx b * vy a).

(** [m * v]: the linear combination of the columns of [m]. *)
Definition mmulv (m : mat3 T) (v : vec3 T) : vec3 T :=
  mkvec3 (vx (c0 m) * vx v + vx (c1 m) * vy v + vx (c2 m) * vz v)
         (vy (c0 m) * vx v + vy (c1 m) * vy v + vy (c2 m) * vz v)
         (vz (c0 m) * vx v + vz (c1 m) * vy v + vz (c2 m) * vz v).

(** [s * m] and [m * s]: glm multiplies every column by [s] on the right in
    both cases. *)
Definition mmuls (m : mat3 T) (s : T) : mat3 T :=
  mkmat3 (vmuls (c0 m) s) (vmuls (c1 m) s) (vmuls (c2 m) s).

Definition smulm (s : T) (m : mat3 T) : mat3 T := mmuls m s.

Definition madd (a b : mat3 T) : mat3 T :=
  mkmat3 (vadd (c0 a) (c0 b)) (vadd (c1 a) (c1 b)) (vadd (c2 a) (c2 b)).

(** [glm::outerProduct(c, r)]: column [i] is [c * r[i]]. *)
Definition outerProduct (c r : vec3 T) : mat3 T :=
  mkmat3 (vmuls c (vx r)) (vmuls c (vy r)) (vmuls c (vz r)).
End Glm.

(** ** Triangle and tetrahedron intersectors *)

(** Result of [ray_tetra_intersection]: the four values written through its
    reference parameters.  Face indices are [int32_t]; the only values they
    take are [-1] and [0..3], so [Z] holds them without wrap-around. *)
Record tetra_isct (T : Type) : Type := mktetra_isct {
  entry_face_idx : Z;
  exit_face_idx : Z;
  t_entry : T;
  t_exit : T
}.

(** A triangle (three vertices) and, for the vjp routines, the three
    gradients of its vertices. *)
Definition tri (T : Type) : Type := (vec3 T * vec3 T * vec3 T)%type.

(** The four vertex-gradient accumulators [v_v0 .. v_v3] of a tetrahedron. *)
Record grad4 (T : Type) : Type := mkgrad4 {
  g_v0 : vec3 T; g_v1 : vec3 T; g_v2 : vec3 T; g_v3 : vec3 T
}.

Section Intersectors.
Context {T : Type} `{Scalar T}.
Local Open Scope scalar_scope.

(** [sign(x) = (x > 0) - (x < 0)]. *)
Definition sign (x : T) : Z :=
  (Z.b2z (ltb (lit 0) x) - Z.b2z (ltb x (lit 0)))%Z.

(** [ray_triangle_intersection] (Moeller-Trumbore).  The C++ function
    returns [bool] and writes [t] only on the path that returns [true]:
    [Some t] is a hit, [None] is a miss (and [t] untouched).

    [const T EPSILON = 1e-8f]: the literal is a [float] whatever [T] is, so
    [EPSILON] is the binary32 number nearest to 1e-8, which is
    [11258999 * 2^-50] (about 9.99999994e-9, a little below 1e-8); the
    conversion of that number to [T] is exact for [float] and [double]. *)
Definition ray_triangle_intersection (o d v0 v1 v2 : vec3 T) : option T :=
  let EPSILON := lit (11258999 # 1125899906842624) in
  let e1 := vsub v1 v0 in
  let e2 := vsub v2 v0 in
  let h := cross d e2 in
  let a := dot e1 h in
  if ((- EPSILON) <? a) && (a <? EPSILON) then None
  else
    let f := lit 1 / a in
    let s := vsub o v0 in
    let u := f * dot s h in
    if (u <? lit 0) || (lit 1 <? u) then None
    else
      let q := cross s e1 in
      let v := f * dot d q in
      if (v <? lit 0) || (lit 1 <? u + v) then None
      else Some (f * dot e2 q).

(** [ray_triangle_intersection_vjp].  The three reference parameters
    [v_v0], [v_v1], [v_v2] are passed in as [acc] and returned. *)
Definition ray_triangle_intersection_vjp
    (o d v0 v1 v2 : vec3 T) (v_t : T) (acc : tri T) : tri T :=
  let '(v_v0, v_v1, v_v2) := acc in
  let v_v0 := vsplat (lit 0) in
  let v_v1 := vsplat (lit 0) in
  let v_v2 := vsplat (lit 0) in
  let e1 := vsub v1 v0 in
  let e2 := vsub v2 v0 in
  let h := cross d e2 in
  let a := dot e1 h in
  let f := lit 1 / a in
  let s := vsub o v0 in
  let dot_s_h := dot s h in
  let u := f * dot_s_h in
  let q := cross s e1 in
  let dot_d_q := dot d q in
  let v := f * dot_d_q in
  let dot_e2_q := dot e2 q in
  let t := f * dot_e2_q in
  (* t = f * dot(e2, q) *)
  let v_f := v_t * dot_e2_q in
  let v_e2 := vmuls (smulv v_t q) f in
  let v_q := vmuls (smulv v_t e2) f in
  (* q = cross(s, e1) *)
  let v_s := cross e1 v_q in
  let v_e1 := cross v_q s in
  (* s = o - v0 *)
  let v_v0 := vsub v_v0 v_s in
  (* f = 1 / a *)
  let v_a := (- v_f) / (a * a) in
  (* a = dot(e1, h) *)
  let v_e1 := vadd v_e1 (smulv v_a h) in
  let v_h := smulv v_a e1 in
  (* h = cross(d, e2) *)
  let v_e2 := vadd v_e2 (cross v_h d) in
  (* e2 = v2 - v0 *)
  let v_v2 := vadd v_v2 v_e2 in
  let v_v0 := vsub v_v0 v_e2 in
  (* e1 = v1 - v0 *)
  let v_v1 := vadd v_v1 v_e1 in
  let v_v0 := vsub v_v0 v_e1 in
  (v_v0, v_v1, v_v2).

(** The local table [faces[4][3]], read at an [int] index.  An index
    outside [0..3] is an out-of-bounds read of the array, undefined in C++:
    [None]. *)
Definition faces (v0 v1 v2 v3 : vec3 T) (i : Z) : option (tri T) :=
  match i with
  | 0%Z => Some (v0, v1, v2)
  | 1%Z => Some (v1, v2, v3)
  | 2%Z => Some (v2, v3, v0)
  | 3%Z => Some (v3, v0, v1)
  | _ => None
  end.

(** Whether face [i] is hit, and at which [t]. *)
Definition face_hit (o d v0 v1 v2 v3 : vec3 T) (i : Z) : option T :=
  match faces v0 v1 v2 v3 i with
  | Some (a, b, c) => ray_triangle_intersection o d a b c
  | None => None
  end.

(** Body of the loop of [ray_tetra_intersection] for one value of [i]. *)
Definition tetra_step (o d v0 v1 v2 v3 : vec3 T)
    (r : tetra_isct T) (i : Z) : tetra_isct T :=
  match face_hit o d v0 v1 v2 v3 i with
  | Some t_isct =>
      let r :=
        if t_isct <? t_entry r
        then mktetra_isct i (exit_face_idx r) t_isct (t_exit r)
        else r in
      if t_exit r <? t_isct
      then mktetra_isct (entry_face_idx r) i (t_entry r) t_isct
      else r
  | None => r
  end.

(** The values the output parameters are set to before the loop. *)
Definition tetra_init : tetra_isct T :=
  mktetra_isct (-1) (-1) (lit 10000000000) (- lit 10000000000).

(** [ray_tetra_intersection]: the returned flag and the output
    parameters. *)
Definition ray_tetra_intersection (o d v0 v1 v2 v3 : vec3 T)
    : bool * tetra_isct T :=
  let r := fold_left (tetra_step o d v0 v1 v2 v3) [0; 1; 2; 3]%Z tetra_init in
  if (entry_face_idx r <? 0)%Z && (exit_face_idx r <? 0)%Z
  then (false, r) else (true, r).

(** One [switch] of the vjp routines: the three gradients of face [idx]
    are added to the accumulators of its vertices.  There is no [default]
    case. *)
Definition scatter (idx : Z) (g : tri T) (acc : grad4 T) : grad4 T :=
  let '(f0, f1, f2) := g in
  let '(mkgrad4 v_v0 v_v1 v_v2 v_v3) := acc in
  match idx with
  | 0%Z => mkgrad4 (vadd v_v0 f0) (vadd v_v1 f1) (vadd v_v2 f2) v_v3
  | 1%Z => mkgrad4 v_v0 (vadd v_v1 f0) (vadd v_v2 f1) (vadd v_v3 f2)
  | 2%Z => mkgrad4 (vadd v_v0 f2) v_v1 (vadd v_v2 f0) (vadd v_v3 f1)
  | 3%Z => mkgrad4 (vadd v_v0 f1) (vadd v_v1 f2) v_v2 (vadd v_v3 f0)
  | _ => acc
  end.

Definition zero3 : tri T :=
  (vsplat (lit 0), vsplat (lit 0), vsplat (lit 0)).

Definition zero4 : grad4 T :=
  mkgrad4 (vsplat (lit 0)) (vsplat (lit 0)) (vsplat (lit 0)) (vsplat (lit 0)).

(** [ray_tetra_intersection_vjp], the recomputing variant.  [acc] holds
    the accumulators on entry; the result holds them on return, [None]
    when the routine reads [faces] out of bounds. *)
Definition ray_tetra_intersection_vjp (o d v0 v1 v2 v3 : vec3 T)
    (v_t_entry v_t_exit : T) (acc : grad4 T) : option (grad4 T) :=
  if (v_t_entry =? lit 0) && (v_t_exit =? lit 0) then Some acc
  else
    let acc := zero4 in
    let '(hit, r) := ray_tetra_intersection o d v0 v1 v2 v3 in
    if negb hit then Some acc
    else
      match faces v0 v1 v2 v3 (entry_face_idx r) with
      | None => None
      | Some (a, b, c) =>
          let v_entry_faces :=
            ray_triangle_intersection_vjp o d a b c v_t_entry zero3 in
          let acc := scatter (entry_face_idx r) v_entry_faces acc in
          match faces v0 v1 v2 v3 (exit_face_idx r) with
          | None => None
          | Some (a, b, c) =>
              let v_exit_faces :=
                ray_triangle_intersection_vjp o d a b c v_t_exit zero3 in
              Some (scatter (exit_face_idx r) v_exit_faces acc)
          end
      end.

(** [ray_tetra_intersection_vjp_shortcut]: the face indices come from the
    caller. *)
Definition ray_tetra_intersection_vjp_shortcut (o d v0 v1 v2 v3 : vec3 T)
    (entry_face_idx exit_face_idx : Z)
    (v_t_entry v_t_exit : T) (acc : grad4 T) : option (grad4 T) :=
  if (v_t_entry =? lit 0) && (v_t_exit =? lit 0) then Some acc
  else
    match faces v0 v1 v2 v3 entry_face_idx with
    | None => None
    | Some (a, b, c) =>
        let v_entry_faces :=
          ray_triangle_intersection_vjp o d a b c v_t_entry zero3 in
        let acc := scatter entry_face_idx v_entry_faces acc in
        match faces v0 v1 v2 v3 exit_face_idx with
        | None => None
        | Some (a, b, c) =>
            let v_exit_faces :=
              ray_triangle_intersection_vjp o d a b c v_t_exit zero3 in
            Some (scatter exit_face_idx v_exit_faces acc)
        end
    end.
End Intersectors.

(** ** Volumetric Gaussian integrator *)

(** The accumulators [v_mean3d], [v_precision], [v_density] of
    [integral_opacity_vjp]. *)
Record gauss_grad (T : Type) : Type := mkgauss_grad {
  v_mean3d : vec3 T;
  v_precision : mat3 T;
  v_density : T
}.

Section Integrator.
Context {T : Type} `{Scalar T} `{MathLib T}.
Local Open Scope scalar_scope.

(** [#define PI 3.14159265358979323846]. *)
Definition PI_macro : T :=
  lit (314159265358979323846 # 100000000000000000000).

(** [integral]. *)
Definition integral (ray_o ray_d : vec3 T) (tmin tmax : T)
    (mean3d : vec3 T) (precision : mat3 T) : T :=
  let mu := vsub mean3d ray_o in
  let aa := dot ray_d (mmulv precision ray_d) in
  if lit (1 # 1000000) <? aa then
    let bb := dot ray_d (mmulv precision mu) in
    let beta1 := sqrtf (aa * lit (1 # 2)) in
    let beta2 := bb / aa in
    lit (1 # 2)
    * (erff (beta1 * (tmax - beta2)) - erff (beta1 * (tmin - beta2)))
  else lit 0.

(** [integral_opacity].  The [printf] behind [verbose || isnan(opacity)]
    changes no value and is left out, and the flag with it. *)
Definition integral_opacity (density : T) (ray_o ray_d mean3d : vec3 T)
    (precision : mat3 T) : T :=
  if density =? lit 0 then lit 0
  else
    let mu := vsub mean3d ray_o in
    let rr := dot ray_d (mmulv precision ray_d) in
    let opacity := lit 0 in
    if lit (1 # 1000000) <? rr then
      let rr_inv := lit 1 / rr in
      let dr := dot mu (mmulv precision ray_d) in
      let dd := dot mu (mmulv precision mu) in
      let cc := dd - dr * dr * rr_inv in
      let _integral :=
        lit 2 * expf ((- lit (1 # 2)) * cc)
        * sqrtf (lit (1 # 2) * PI_macro * rr_inv) in
      lit 1 - expf ((- density) * _integral)
    else opacity.

(** [integral_opacity_vjp]: [acc] holds the three accumulators on entry,
    the result holds them on return. *)
Definition integral_opacity_vjp (density : T) (ray_o ray_d mean3d : vec3 T)
    (precision : mat3 T) (v_opacity : T) (acc : gauss_grad T)
    : gauss_grad T :=
  if density =? lit 0 then acc
  else
    let mu := vsub mean3d ray_o in
    let rr := dot ray_d (mmulv precision ray_d) in
    if lit (1 # 1000000) <? rr then
      let rr_inv := lit 1 / rr in
      let dr := dot mu (mmulv precision ray_d) in
      let dd := dot mu (mmulv precision mu) in
      let cc := dd - dr * dr * rr_inv in
      let _integral :=
        lit 2 * expf ((- lit (1 # 2)) * cc)
        * sqrtf (lit (1 # 2) * PI_macro * rr_inv) in
      let opacity := lit 1 - expf ((- density) * _integral) in
      let v_density' :=
        v_density acc + v_opacity * _integral * (lit 1 - opacity) in
      let v_integral := v_opacity * density * (lit 1 - opacity) in
      let v_cc := (- lit (1 # 2)) * _integral * v_integral in
      let v_rr := v_cc * rr_inv in
      let v_dd := v_cc in
      let v_dr := (- lit 2) * dr * rr_inv * v_cc in
      let v_rr := v_rr + dr * dr * rr_inv * rr_inv * v_cc in
      let v_mean3d' :=
        vadd (v_mean3d acc) (vmuls (mmulv precision ray_d) v_dr) in
      let v_mean3d' :=
        vadd v_mean3d' (vmuls (mmulv (smulm (lit 2) precision) mu) v_dd) in
      let v_precision' :=
        madd (v_precision acc) (mmuls (outerProduct ray_d ray_d) v_rr) in
      let v_precision' :=
        madd v_precision' (mmuls (outerProduct mu ray_d) v_dr) in
      let v_precision' :=
        madd v_precision' (mmuls (outerProduct mu mu) v_dd) in
      mkgauss_grad v_mean3d' v_precision' v_density'
    else acc.
End Integrator.

(** ** Exact rational arithmetic *)

(** Scalars are rationals kept in lowest terms; every operation is exact.
    [x / 0] is [0] here; no evaluation below divides by zero. *)
Module QInst.
Definition Qltb (x y : Q) : bool :=
  match (x ?= y)%Q with Lt => true | _ => false end.

#[export] Instance QScalar : Scalar Q := {|
  lit := Qred;
  add := fun x y => Qred (x + y);
  sub := fun x y => Qred (x - y);
  mul := fun x y => Qred (x * y);
  div := fun x y => Qred (x / y);
  neg := fun x => Qred (- x);
  ltb := Qltb;
  eqb := Qeq_bool
|}.

Definition v3 (x y z : Q) : vec3 Q := mkvec3 (Qred x) (Qred y) (Qred z).
End QInst.

(** ** Real arithmetic *)

Module RInst.
Local Open Scope R_scope.

Definition Rltb (x y : R) : bool := if Rlt_dec x y then true else false.
Definition Reqb (x y : R) : bool := if Req_dec_T x y then true else false.

#[export] Instance RScalar : Scalar R := {|
  lit := Q2R;
  add := Rplus;
  sub := Rminus;
  mul := Rmult;
  div := Rdiv;
  neg := Ropp;
  ltb := Rltb;
  eqb := Reqb
|}.

(** The math library over the reals: the square root, the exponential and
    the error function [erf x = 2/sqrt(pi) * int_0^x exp(-t^2) dt]. *)
Definition gauss (t : R) : R := exp (- (t * t)).

Definition gauss_continuity : continuity gauss.
Proof. unfold gauss. reg. Defined.

Definition gauss_integrable (a b : R) : Riemann_integrable gauss a b.
Proof.
  destruct (Rle_dec a b) as [Hab|Hab].
  - apply continuity_implies_RiemannInt; [exact Hab|].
    intros x _. apply gauss_continuity.
  - apply RiemannInt_P1, continuity_implies_RiemannInt; [lra|].
    intros x _. apply gauss_continuity.
Defined.

Definition erf (x : R) : R := 2 / sqrt PI * RiemannInt (gauss_integrable 0 x).

#[export] Instance RMath : MathLib R := {|
  sqrtf := sqrt;
  expf := exp;
  erff := erf
|}.
End RInst.

(** ** Properties the statements below are about *)

(** The laws of [<] that the min/max reduction of the tetrahedron test relies
    on: [<] is asymmetric; when [a < b], every [c] has [a < c] or [c < b];
    and the initial value of [t_exit] is below the initial value of
    [t_entry].  They hold for the rationals and the reals (and for
    floating-point numbers other than NaN). *)
Class LtLaws (T : Type) `{Scalar T} : Prop := {
  ltb_asym : forall a b : T, ltb a b = true -> ltb b a = false;
  ltb_cotrans :
    forall a b c : T, ltb a b = true -> ltb a c = true \/ ltb c b = true;
  ltb_sentinels : ltb (neg (lit 10000000000)) (lit 10000000000) = true
}.
Arguments LtLaws T {_}.

(** Addition has [0] as a neutral element and is associative. *)
Class AddLaws (T : Type) `{Scalar T} : Prop := {
  add_assoc : forall x y z : T, add (add x y) z = add x (add y z);
  add_0_l : forall x : T, add (lit 0) x = x;
  add_0_r : forall x : T, add x (lit 0) = x
}.
Arguments AddLaws T {_}.

Section Properties.
Context {T : Type} `{Scalar T}.

(** Some face of the tetrahedron is hit. *)
Definition some_face_hit (o d v0 v1 v2 v3 : vec3 T) : Prop :=
  exists i t, face_hit o d v0 v1 v2 v3 i = Some t.

(** Face [idx] is hit at [t]; no face is hit at a value that comes before
    [t]; and every face hit earlier in the order 0,1,2,3 is hit at a value
    that [t] comes strictly before.  [before] is [<] for the entry and [>] for
    the exit. *)
Definition first_extremal (before : T -> T -> bool)
    (hitf : Z -> option T) (idx : Z) (t : T) : Prop :=
  (0 <= idx < 4)%Z /\
  hitf idx = Some t /\
  (forall j u, hitf j = Some u -> before u t = false) /\
  (forall j u, (j < idx)%Z -> hitf j = Some u -> before t u = true).

(** [t_entry] is the minimum of the hit values, at the earliest face that
    attains it. *)
Definition entry_is_first_min (o d v0 v1 v2 v3 : vec3 T)
    (r : tetra_isct T) : Prop :=
  first_extremal ltb (face_hit o d v0 v1 v2 v3)
    (entry_face_idx r) (t_entry r).

(** [t_exit] is the maximum of the hit values, at the earliest face that
    attains it. *)
Definition exit_is_first_max (o d v0 v1 v2 v3 : vec3 T)
    (r : tetra_isct T) : Prop :=
  first_extremal (fun a b => ltb b a) (face_hit o d v0 v1 v2 v3)
    (exit_face_idx r) (t_exit r).

(** The tetrahedron test reports a hit exactly when a face is hit, and on a
    hit the entry and the exit are the first minimum and the first
    maximum. *)
Definition tetra_min_max_spec (o d v0 v1 v2 v3 : vec3 T) : Prop :=
  let (hit, r) := ray_tetra_intersection o d v0 v1 v2 v3 in
  (hit = true <-> some_face_hit o d v0 v1 v2 v3) /\
  (hit = true ->
   entry_is_first_min o d v0 v1 v2 v3 r /\
   exit_is_first_max o d v0 v1 v2 v3 r).

(** The entry pair and the exit pair of a result, and the magnitude of the
    two initial values [1e10f] and [-1e10f]. *)
Definition entry_sel (r : tetra_isct T) : Z * T :=
  (entry_face_idx r, t_entry r).

Definition exit_sel (r : tetra_isct T) : Z * T :=
  (exit_face_idx r, t_exit r).

Definition BIG : T := lit 10000000000.

(** One update of a running extremum: the new value replaces the current
    one only when it comes strictly before it. *)
Definition sel_step (before : T -> T -> bool)
    (s : Z * T) (i : Z) (t : T) : Z * T :=
  if before t (snd s) then (i, t) else s.

(** What holds of a running extremum once the faces below [k] have been
    visited. *)
Definition sel_inv (before : T -> T -> bool) (hitf : Z -> option T)
    (init : T) (k : Z) (s : Z * T) : Prop :=
  (forall j u, (j < k)%Z -> hitf j = Some u -> before u (snd s) = false) /\
  ((fst s = (-1)%Z /\ snd s = init) \/
   ((0 <= fst s < k)%Z /\
    hitf (fst s) = Some (snd s) /\
    (forall j u, (j < fst s)%Z -> hitf j = Some u ->
                 before (snd s) u = true))).

(** Component-wise sums of accumulators. *)
Definition grad4_add (a b : grad4 T) : grad4 T :=
  mkgrad4 (vadd (g_v0 a) (g_v0 b)) (vadd (g_v1 a) (g_v1 b))
          (vadd (g_v2 a) (g_v2 b)) (vadd (g_v3 a) (g_v3 b)).

Definition gauss_grad_add (a b : gauss_grad T) : gauss_grad T :=
  mkgauss_grad (vadd (v_mean3d a) (v_mean3d b))
               (madd (v_precision a) (v_precision b))
               (add (v_density a) (v_density b)).

Definition zero_gauss : gauss_grad T :=
  mkgauss_grad (vsplat (lit 0))
               (mkmat3 (vsplat (lit 0)) (vsplat (lit 0)) (vsplat (lit 0)))
               (lit 0).

(** The test [v_t_entry == 0 && v_t_exit == 0] of the two tetrahedron vjp
    routines. *)
Definition both_zero (v_t_entry v_t_exit : T) : bool :=
  eqb v_t_entry (lit 0) && eqb v_t_exit (lit 0).
End Properties.

(** A routine with accumulator parameters leaves no caller-provided value in
    its result: whatever the accumulators hold on entry, the result is the one
    obtained from zero accumulators. *)
Definition starts_from_zero {A B : Type} (zero : A) (f : A -> B) : Prop :=
  forall acc, f acc = f zero.

(** ** The example scenario *)

Module Scenario.
Import QInst.

(** The axis-aligned unit tetrahedron. *)
Definition V0 : vec3 Q := v3 0 0 0.
Definition V1 : vec3 Q := v3 1 0 0.
Definition V2 : vec3 Q := v3 0 1 0.
Definition V3 : vec3 Q := v3 0 0 1.

(** The ray of the scenario: origin (0.1, 0.1, 2), direction (0, 0, -1). *)
Definition ray_o : vec3 Q := v3 (1 # 10) (1 # 10) 2.
Definition ray_d : vec3 Q := v3 0 0 (-1).

(** The same ray from much farther away: origin (0.1, 0.1, 2e10). *)
Definition far_o : vec3 Q := v3 (1 # 10) (1 # 10) 20000000000.

(** [x] is [y] up to [tol]. *)
Definition approx (tol x y : Q) : Prop := (Qabs (x - y) <= tol)%Q.

(** The scenario as the specification words it: a hit, entry through face 1
    at [t] about 1.8, exit through face 0 at [t] about 2.0. *)
Definition scenario_spec (tol : Q) : Prop :=
  let (hit, r) := ray_tetra_intersection ray_o ray_d V0 V1 V2 V3 in
  hit = true /\
  entry_face_idx r = 1%Z /\ approx tol (t_entry r) (18 # 10) /\
  exit_face_idx r = 0%Z /\ approx tol (t_exit r) 2.

(** Accumulators that are not zero. *)
Definition stale4 : grad4 Q := mkgrad4 V1 V1 V1 V1.
End Scenario.

(** ** The triangle test as the specification words it, over the reals *)

Module RealSpec.
Import RInst.
Local Open Scope R_scope.

(** The value of the literal [1e-8f]: the binary32 number nearest to 1e-8. *)
Definition epsilon_f32 : R := 11258999 / 1125899906842624.

(** With [a = e1.(d x e2)], [f = 1/a], [s = o - v0], [h = d x e2],
    [q = s x e1], [u = f*(s.h)] and [v = f*(d.q)]: no hit when
    [|a| < eps]; otherwise no hit when [u] is outside [0,1] or [v < 0] or
    [u + v > 1]; otherwise a hit with [t = f*(e2.q)]. *)
Definition triangle_branches_at (eps : R) (o d v0 v1 v2 : vec3 R) : Prop :=
  let e1 := vsub v1 v0 in
  let e2 := vsub v2 v0 in
  let h := cross d e2 in
  let a := dot e1 h in
  let f := 1 / a in
  let s := vsub o v0 in
  let q := cross s e1 in
  let u := f * dot s h in
  let v := f * dot d q in
  (Rabs a < eps ->
   ray_triangle_intersection o d v0 v1 v2 = None) /\
  (~ Rabs a < eps ->
   u < 0 \/ 1 < u \/ v < 0 \/ 1 < u + v ->
   ray_triangle_intersection o d v0 v1 v2 = None) /\
  (~ Rabs a < eps ->
   0 <= u <= 1 -> 0 <= v -> u + v <= 1 ->
   ray_triangle_intersection o d v0 v1 v2 = Some (f * dot e2 q)).

(** The three outcomes as the specification words them: the band is
    [|a| < 1e-8], with the decimal number 1e-8. *)
Definition triangle_branches (o d v0 v1 v2 : vec3 R) : Prop :=
  triangle_branches_at (/ 100000000) o d v0 v1 v2.
End RealSpec.

(** ** A Gaussian for the examples over the reals *)

Module RealScenario.
Import RInst RealSpec.
Local Open Scope R_scope.

(** The origin, the unit vector along z, and the identity matrix. *)
Definition origin : vec3 R := mkvec3 0 0 0.
Definition unit_z : vec3 R := mkvec3 0 0 1.
Definition identity3 : mat3 R :=
  mkmat3 (mkvec3 1 0 0) (mkvec3 0 1 0) (mkvec3 0 0 1).

(** A triangle in the plane z = 0 and a ray that starts below it and points
    away from it. *)
Definition tri_v0 : vec3 R := mkvec3 0 0 0.
Definition tri_v1 : vec3 R := mkvec3 1 0 0.
Definition tri_v2 : vec3 R := mkvec3 0 1 0.
Definition below_o : vec3 R := mkvec3 (/ 4) (/ 4) (-1).
Definition down_d : vec3 R := mkvec3 0 0 (-1).

(** A ray through the same triangle whose determinant [a] is exactly the
    value of [1e-8f]: below 1e-8, but not below [EPSILON]. *)
Definition graze_o : vec3 R := mkvec3 (/ 4) (/ 4) 1.
Definition graze_d : vec3 R := mkvec3 0 0 (- epsilon_f32).

(** Accumulators whose density component is not zero. *)
Definition stale_gauss : gauss_grad R :=
  mkgauss_grad origin (mkmat3 origin origin origin) 1.

Definition stale_grad4 : grad4 R := mkgrad4 unit_z unit_z unit_z unit_z.
End RealScenario.

(** ** Quantities and predicates of the further properties *)

Section FurtherDefinitions.
Context {T : Type} `{Scalar T}.
Local Open Scope scalar_scope.

(** The determinant [a], the coordinates [u], [v] and the parameter [t] that
    [ray_triangle_intersection] and its vjp compute. *)
Definition triangle_a (d v0 v1 v2 : vec3 T) : T :=
  dot (vsub v1 v0) (cross d (vsub v2 v0)).

Definition triangle_u (o d v0 v1 v2 : vec3 T) : T :=
  lit 1 / triangle_a d v0 v1 v2 * dot (vsub o v0) (cross d (vsub v2 v0)).

Definition triangle_v (o d v0 v1 v2 : vec3 T) : T :=
  lit 1 / triangle_a d v0 v1 v2 * dot d (cross (vsub o v0) (vsub v1 v0)).

Definition triangle_t (o d v0 v1 v2 : vec3 T) : T :=
  lit 1 / triangle_a d v0 v1 v2
  * dot (vsub v2 v0) (cross (vsub o v0) (vsub v1 v0)).

(** The same for face [i] of a tetrahedron ([0] outside the table). *)
Definition tetra_face_a (d v0 v1 v2 v3 : vec3 T) (i : Z) : T :=
  match faces v0 v1 v2 v3 i with
  | Some (a, b, c) => triangle_a d a b c
  | None => lit 0
  end.

Definition tetra_face_t (o d v0 v1 v2 v3 : vec3 T) (i : Z) : T :=
  match faces v0 v1 v2 v3 i with
  | Some (a, b, c) => triangle_t o d a b c
  | None => lit 0
  end.

(** What one face contributes to the four accumulators: the triangle vjp of
    face [i] with upstream gradient [v_t], scattered onto zero. *)
Definition face_grad (o d v0 v1 v2 v3 : vec3 T) (i : Z) (v_t : T)
    : grad4 T :=
  match faces v0 v1 v2 v3 i with
  | Some (a, b, c) =>
      scatter i (ray_triangle_intersection_vjp o d a b c v_t zero3) zero4
  | None => zero4
  end.

(** The vertex that face [i] of the table leaves out. *)
Definition opposite (v0 v1 v2 v3 : vec3 T) (i : Z) : option (vec3 T) :=
  match i with
  | 0%Z => Some v3
  | 1%Z => Some v0
  | 2%Z => Some v1
  | 3%Z => Some v2
  | _ => None
  end.

(** The four accumulators read through the face table. *)
Definition faces_of (acc : grad4 T) (i : Z) : option (tri T) :=
  faces (g_v0 acc) (g_v1 acc) (g_v2 acc) (g_v3 acc) i.

Definition opposite_of (acc : grad4 T) (i : Z) : option (vec3 T) :=
  opposite (g_v0 acc) (g_v1 acc) (g_v2 acc) (g_v3 acc) i.

(** A running extremum is either the initial pair or a face together with
    the value that face is hit at. *)
Definition sel_ok (hitf : Z -> option T) (init : T) (k : Z) (s : Z * T)
    : Prop :=
  (fst s = (-1)%Z /\ snd s = init) \/
  ((0 <= fst s < k)%Z /\ hitf (fst s) = Some (snd s)).

(** The three gradients that the triangle vjp returns. *)
Definition grad_v0 (g : tri T) : vec3 T := fst (fst g).
Definition grad_v1 (g : tri T) : vec3 T := snd (fst g).
Definition grad_v2 (g : tri T) : vec3 T := snd g.
End FurtherDefinitions.

Module RealGeom.
Import RInst.
Local Open Scope R_scope.

(** [p] lies in the triangle [(a, b, c)]. *)
Definition on_triangle (p a b c : vec3 R) : Prop :=
  exists u v : R,
    0 <= u /\ 0 <= v /\ u + v <= 1 /\
    p = vadd a (vadd (smulv u (vsub b a)) (smulv v (vsub c a))).

(** The point of the ray at parameter [t]. *)
Definition ray_point (o d : vec3 R) (t : R) : vec3 R := vadd o (smulv t d).

(** [p] lies on face [i] of the tetrahedron. *)
Definition on_face (p v0 v1 v2 v3 : vec3 R) (i : Z) : Prop :=
  match faces v0 v1 v2 v3 i with
  | Some (a, b, c) => on_triangle p a b c
  | None => False
  end.

(** A symmetric matrix. *)
Definition symmetric3 (P : mat3 R) : Prop :=
  vy (c0 P) = vx (c1 P) /\ vz (c0 P) = vx (c2 P) /\ vz (c1 P) = vy (c2 P).

(** The sum of the products of corresponding entries of two matrices. *)
Definition mdot (A B : mat3 R) : R :=
  dot (c0 A) (c0 B) + dot (c1 A) (c1 B) + dot (c2 A) (c2 B).

(** The quantities [rr], [cc] and [_integral] of [integral_opacity], as
    functions of its inputs. *)
Definition opacity_rr (ray_d : vec3 R) (precision : mat3 R) : R :=
  dot ray_d (mmulv precision ray_d).

Definition opacity_cc (ray_o ray_d mean3d : vec3 R) (precision : mat3 R)
    : R :=
  let mu := vsub mean3d ray_o in
  let rr := dot ray_d (mmulv precision ray_d) in
  let dr := dot mu (mmulv precision ray_d) in
  let dd := dot mu (mmulv precision mu) in
  dd - dr * dr * (1 / rr).

Definition opacity_integral (ray_o ray_d mean3d : vec3 R)
    (precision : mat3 R) : R :=
  2 * exp (- / 2 * opacity_cc ray_o ray_d mean3d precision)
  * sqrt (/ 2 * PI_macro * (1 / opacity_rr ray_d precision)).

(** The unit tetrahedron and the ray of the example scenario, over the
    reals. *)
Definition U0 : vec3 R := mkvec3 0 0 0.
Definition U1 : vec3 R := mkvec3 1 0 0.
Definition U2 : vec3 R := mkvec3 0 1 0.
Definition U3 : vec3 R := mkvec3 0 0 1.
Definition real_o : vec3 R := mkvec3 (/ 10) (/ 10) 2.
Definition real_d : vec3 R := mkvec3 0 0 (-1).
End RealGeom.

(** ** The min/max reduction *)

Section Selection.
Context {T : Type} `{Scalar T}.
Variable before : T -> T -> bool.
Hypothesis before_asym :
  forall a b, before a b = true -> before b a = false.
Hypothesis before_cotrans :
  forall a b c, before a b = true -> before a c = true \/ before c b = true.
Variable hitf : Z -> option T.
Variable init : T.

Lemma before_irrefl a : before a a = false.
Proof.
  destruct (before a a) eqn:E; [|reflexivity].
  rewrite (before_asym E) in E. discriminate.
Qed.

Lemma before_below a b c :
  before a b = true -> before c b = false -> before a c = true.
Proof.
  intros Hab Hcb. destruct (before_cotrans c Hab) as [Hac|Hcb']; [assumption|].
  congruence.
Qed.

Lemma before_not_above a b c :
  before a b = true -> before c b = false -> before c a = false.
Proof.
  intros Hab Hcb. destruct (before c a) eqn:Hca; [|reflexivity].
  destruct (before_cotrans b Hca) as [Hcb'|Hba]; [congruence|].
  rewrite (before_asym Hab) in Hba. discriminate.
Qed.

(** Visiting face [k] preserves the invariant. *)
Lemma sel_inv_step k s :
  (0 <= k)%Z ->
  sel_inv before hitf init k s ->
  sel_inv before hitf init (k + 1)
    (match hitf k with Some t => sel_step before s k t | None => s end).
Proof.
  intros Hk [Hall Hsel].
  destruct (hitf k) as [t|] eqn:Hhit.
  - unfold sel_step. destruct (before t (snd s)) eqn:Hb.
    + split; cbn [fst snd].
      * intros j u Hj Hu.
        destruct (Z.eq_dec j k) as [->|Hne].
        -- rewrite Hhit in Hu. injection Hu as <-. apply before_irrefl.
        -- apply before_not_above with (b := snd s); [assumption|].
           apply (Hall j); [lia|assumption].
      * right. repeat split; try lia; [assumption|].
        intros j u Hj Hu. apply before_below with (b := snd s); [assumption|].
        apply (Hall j); assumption.
    + split.
      * intros j u Hj Hu.
        destruct (Z.eq_dec j k) as [->|Hne].
        -- rewrite Hhit in Hu. injection Hu as <-. assumption.
        -- apply (Hall j); [lia|assumption].
      * destruct Hsel as [Hnone|(Hr & Hf & Hfirst)]; [left; assumption|].
        right. repeat split; try lia; assumption.
  - split.
    + intros j u Hj Hu.
      destruct (Z.eq_dec j k) as [->|Hne]; [congruence|].
      apply (Hall j); [lia|assumption].
    + destruct Hsel as [Hnone|(Hr & Hf & Hfirst)]; [left; assumption|].
      right. repeat split; try lia; assumption.
Qed.
End Selection.

(** ** The tetrahedron test *)

Section TetraForward.
Context {T : Type} `{Scalar T}.
Variables o d v0 v1 v2 v3 : vec3 T.

Lemma faces_in_range i :
  (0 <= i < 4)%Z <-> exists f, faces v0 v1 v2 v3 i = Some f.
Proof.
  split.
  - intros Hi.
    assert (Hc : (i = 0 \/ i = 1 \/ i = 2 \/ i = 3)%Z) by lia.
    destruct Hc as [Hc|[Hc|[Hc|Hc]]]; subst i; cbn; eauto.
  - intros [f Hf]. unfold faces in Hf.
    destruct i as [|p|p]; try discriminate; [lia|].
    destruct p as [[q|q|]|[q|q|]|]; try discriminate; lia.
Qed.

Lemma face_hit_range i t :
  face_hit o d v0 v1 v2 v3 i = Some t -> (0 <= i < 4)%Z.
Proof.
  unfold face_hit. intros Hhit. apply faces_in_range.
  destruct (faces v0 v1 v2 v3 i) as [f|]; [eauto|discriminate].
Qed.

(** The loop body updates the entry pair and the exit pair independently,
    each by one step of a running extremum. *)
Lemma tetra_step_entry r i :
  entry_sel (tetra_step o d v0 v1 v2 v3 r i) =
  match face_hit o d v0 v1 v2 v3 i with
  | Some t => sel_step ltb (entry_sel r) i t
  | None => entry_sel r
  end.
Proof.
  unfold tetra_step, sel_step, entry_sel.
  destruct (face_hit o d v0 v1 v2 v3 i) as [t|]; [|reflexivity].
  destruct r as [ei xi te tx]; cbn.
  destruct (ltb t te); cbn; destruct (ltb tx t); reflexivity.
Qed.

Lemma tetra_step_exit r i :
  exit_sel (tetra_step o d v0 v1 v2 v3 r i) =
  match face_hit o d v0 v1 v2 v3 i with
  | Some t => sel_step (fun a b => ltb b a) (exit_sel r) i t
  | None => exit_sel r
  end.
Proof.
  unfold tetra_step, sel_step, exit_sel.
  destruct (face_hit o d v0 v1 v2 v3 i) as [t|]; [|reflexivity].
  destruct r as [ei xi te tx]; cbn.
  destruct (ltb t te); cbn; destruct (ltb tx t); reflexivity.
Qed.

Context `{!LtLaws T}.

Lemma gtb_asym (a b : T) : ltb b a = true -> ltb a b = false.
Proof. apply ltb_asym. Qed.

Lemma gtb_cotrans (a b c : T) :
  ltb b a = true -> ltb c a = true \/ ltb b c = true.
Proof. intros Hba. destruct (ltb_cotrans b a c Hba); auto. Qed.

Lemma entry_inv_step k r :
  (0 <= k)%Z ->
  sel_inv ltb (face_hit o d v0 v1 v2 v3) BIG k (entry_sel r) ->
  sel_inv ltb (face_hit o d v0 v1 v2 v3) BIG (k + 1)
    (entry_sel (tetra_step o d v0 v1 v2 v3 r k)).
Proof.
  intros Hk Hinv. rewrite tetra_step_entry.
  apply sel_inv_step; auto using ltb_asym, ltb_cotrans.
Qed.

Lemma exit_inv_step k r :
  (0 <= k)%Z ->
  sel_inv (fun a b => ltb b a) (face_hit o d v0 v1 v2 v3) (neg BIG) k
    (exit_sel r) ->
  sel_inv (fun a b => ltb b a) (face_hit o d v0 v1 v2 v3) (neg BIG) (k + 1)
    (exit_sel (tetra_step o d v0 v1 v2 v3 r k)).
Proof.
  intros Hk Hinv. rewrite tetra_step_exit.
  apply sel_inv_step; auto using gtb_asym, gtb_cotrans.
Qed.

Lemma sel_inv_start before init :
  sel_inv before (face_hit o d v0 v1 v2 v3) init 0 ((-1)%Z, init).
Proof.
  split; [|left; split; reflexivity].
  intros j u Hj Hu. apply face_hit_range in Hu. lia.
Qed.

(** After the four iterations both running extrema satisfy the invariant
    for all faces. *)
Lemma tetra_loop_inv :
  let r := fold_left (tetra_step o d v0 v1 v2 v3) [0; 1; 2; 3]%Z tetra_init in
  sel_inv ltb (face_hit o d v0 v1 v2 v3) BIG 4 (entry_sel r) /\
  sel_inv (fun a b => ltb b a) (face_hit o d v0 v1 v2 v3) (neg BIG) 4
    (exit_sel r).
Proof.
  cbn [fold_left]. split.
  - apply (entry_inv_step (k := 3)); [lia|].
    apply (entry_inv_step (k := 2)); [lia|].
    apply (entry_inv_step (k := 1)); [lia|].
    apply (entry_inv_step (k := 0)); [lia|].
    apply sel_inv_start.
  - apply (exit_inv_step (k := 3)); [lia|].
    apply (exit_inv_step (k := 2)); [lia|].
    apply (exit_inv_step (k := 1)); [lia|].
    apply (exit_inv_step (k := 0)); [lia|].
    apply sel_inv_start.
Qed.

(** A running extremum that has moved off its initial pair is the first
    extremal face. *)
Lemma sel_inv_first_extremal before init s :
  sel_inv before (face_hit o d v0 v1 v2 v3) init 4 s ->
  (0 <= fst s)%Z ->
  first_extremal before (face_hit o d v0 v1 v2 v3) (fst s) (snd s).
Proof.
  intros [Hall Hsel] Hidx.
  destruct Hsel as [[Hnone _]|(Hr & Hf & Hfirst)]; [lia|].
  repeat split; try lia; try assumption.
  intros j u Hu. apply (Hall j); [|assumption].
  apply face_hit_range in Hu. lia.
Qed.

(** A hit value that comes before the initial value moves the running
    extremum off its initial pair. *)
Lemma sel_inv_moved before init s i t :
  sel_inv before (face_hit o d v0 v1 v2 v3) init 4 s ->
  face_hit o d v0 v1 v2 v3 i = Some t ->
  before t init = true ->
  (0 <= fst s)%Z.
Proof.
  intros [Hall Hsel] Hhit Hb.
  destruct Hsel as [[Hnone Hinit]|(Hr & _)]; [|lia].
  exfalso. rewrite Hinit in Hall.
  pose proof (face_hit_range _ Hhit) as Hi.
  rewrite (Hall i t) in Hb; [discriminate|lia|assumption].
Qed.
End TetraForward.

Section TetraMinMax.
Context {T : Type} `{Scalar T} `{!LtLaws T}.
Variables o d v0 v1 v2 v3 : vec3 T.

(** With both indices still [-1] after the loop, no face was hit. *)
Lemma no_index_no_hit s_entry s_exit :
  sel_inv ltb (face_hit o d v0 v1 v2 v3) BIG 4 s_entry ->
  sel_inv (fun a b => ltb b a) (face_hit o d v0 v1 v2 v3) (neg BIG) 4 s_exit ->
  (fst s_entry < 0)%Z -> (fst s_exit < 0)%Z ->
  ~ some_face_hit o d v0 v1 v2 v3.
Proof.
  intros [Ha [[_ Ie]|(Hr & _)]] [Hb [[_ Ix]|(Hr' & _)]] Hne Hnx [i [t Hhit]];
    try lia.
  pose proof (face_hit_range _ _ _ _ _ _ _ Hhit) as Hi.
  assert (Hlo : ltb t BIG = false).
  { rewrite <- Ie. apply (Ha i); [lia|assumption]. }
  assert (Hhi : ltb (neg BIG) t = false).
  { rewrite <- Ix. apply (Hb i); [lia|assumption]. }
  destruct (ltb_cotrans _ _ t ltb_sentinels) as [E|E];
    unfold BIG in *; congruence.
Qed.

(** With an index set after the loop, some face was hit. *)
Lemma index_set_hit before init s :
  sel_inv before (face_hit o d v0 v1 v2 v3) init 4 s ->
  (0 <= fst s)%Z ->
  some_face_hit o d v0 v1 v2 v3.
Proof.
  intros [_ [[Hnone _]|(_ & Hf & _)]] Hidx; [lia|].
  exists (fst s), (snd s). assumption.
Qed.

(** ** C1 (amended): the tetrahedron test reports a hit exactly when one of
    the four faces is hit.  On a hit, [t_entry] is the minimum of the hit
    values and [entry_face_idx] the earliest face that attains it, provided
    some hit value is below the initial value [1e10] of [t_entry]; and
    [t_exit] is the maximum and [exit_face_idx] the earliest face that attains
    it, provided some hit value is above the initial value [-1e10] of
    [t_exit]. *)
Theorem tetra_min_max_within_sentinels :
  let (hit, r) := ray_tetra_intersection o d v0 v1 v2 v3 in
  (hit = true <-> some_face_hit o d v0 v1 v2 v3) /\
  (hit = true ->
   ((exists i t, face_hit o d v0 v1 v2 v3 i = Some t /\ ltb t BIG = true) ->
    entry_is_first_min o d v0 v1 v2 v3 r) /\
   ((exists i t, face_hit o d v0 v1 v2 v3 i = Some t /\
                 ltb (neg BIG) t = true) ->
    exit_is_first_max o d v0 v1 v2 v3 r)).
Proof.
  unfold ray_tetra_intersection.
  destruct (tetra_loop_inv o d v0 v1 v2 v3) as [He Hx].
  set (r := fold_left _ _ _) in *.
  assert (Hparts :
    ((exists i t, face_hit o d v0 v1 v2 v3 i = Some t /\ ltb t BIG = true) ->
     entry_is_first_min o d v0 v1 v2 v3 r) /\
    ((exists i t, face_hit o d v0 v1 v2 v3 i = Some t /\
                  ltb (neg BIG) t = true) ->
     exit_is_first_max o d v0 v1 v2 v3 r)).
  { split; intros (i & t & Hhit & Hlt).
    - unfold entry_is_first_min.
      change (entry_face_idx r) with (fst (entry_sel r)).
      change (t_entry r) with (snd (entry_sel r)).
      eapply sel_inv_first_extremal; [exact He|].
      eapply sel_inv_moved; [exact He|exact Hhit|exact Hlt].
    - unfold exit_is_first_max.
      change (exit_face_idx r) with (fst (exit_sel r)).
      change (t_exit r) with (snd (exit_sel r)).
      eapply sel_inv_first_extremal; [exact Hx|].
      eapply sel_inv_moved; [exact Hx|exact Hhit|exact Hlt]. }
  destruct (entry_face_idx r <? 0)%Z eqn:Ee;
    [destruct (exit_face_idx r <? 0)%Z eqn:Ex|]; cbn [andb].
  - apply Z.ltb_lt in Ee, Ex. split; [|discriminate].
    split; [discriminate|]. intros Hsome. exfalso.
    eapply no_index_no_hit; [exact He|exact Hx|exact Ee|exact Ex|exact Hsome].
  - apply Z.ltb_ge in Ex. split; [|intros _; exact Hparts].
    split; [intros _|reflexivity].
    eapply index_set_hit; [exact Hx|exact Ex].
  - apply Z.ltb_ge in Ee. split; [|intros _; exact Hparts].
    split; [intros _|reflexivity].
    eapply index_set_hit; [exact He|exact Ee].
Qed.
End TetraMinMax.

(** ** The tetrahedron vjp routines *)

Section TetraVjp.
Context {T : Type} `{Scalar T}.
Variables o d v0 v1 v2 v3 : vec3 T.

(** ** C7: when both upstream gradients pass the test [== 0], both
    tetrahedron vjp routines return at once and the four accumulators are as
    they were on entry. *)
Theorem vjp_zero_upstream_untouched
    (e x : Z) (v_t_entry v_t_exit : T) (acc : grad4 T) :
  eqb v_t_entry (lit 0) = true ->
  eqb v_t_exit (lit 0) = true ->
  ray_tetra_intersection_vjp o d v0 v1 v2 v3 v_t_entry v_t_exit acc
    = Some acc /\
  ray_tetra_intersection_vjp_shortcut o d v0 v1 v2 v3 e x
    v_t_entry v_t_exit acc = Some acc.
Proof.
  intros He Hx.
  unfold ray_tetra_intersection_vjp, ray_tetra_intersection_vjp_shortcut.
  rewrite He, Hx. split; reflexivity.
Qed.

(** ** C9: the shortcut variant reads [faces] at the indices it is given,
    unchecked.  When at least one upstream gradient is nonzero, the call
    stays within the bounds of the table exactly when both indices are in
    [0..3]. *)
Theorem shortcut_in_bounds_iff
    (e x : Z) (v_t_entry v_t_exit : T) (acc : grad4 T) :
  both_zero v_t_entry v_t_exit = false ->
  ((exists g, ray_tetra_intersection_vjp_shortcut o d v0 v1 v2 v3 e x
                v_t_entry v_t_exit acc = Some g)
   <-> (0 <= e < 4)%Z /\ (0 <= x < 4)%Z).
Proof.
  unfold both_zero, ray_tetra_intersection_vjp_shortcut. intros ->.
  split.
  - intros [g Hg].
    destruct (faces v0 v1 v2 v3 e) as [[[a b] c]|] eqn:Fe; [|discriminate].
    destruct (faces v0 v1 v2 v3 x) as [[[a' b'] c']|] eqn:Fx; [|discriminate].
    split; apply (faces_in_range v0 v1 v2 v3); eauto.
  - intros [He Hx].
    apply (faces_in_range v0 v1 v2 v3) in He, Hx.
    destruct He as [[[a b] c] ->]. destruct Hx as [[[a' b'] c'] ->].
    eauto.
Qed.

(** ** C2: given the face indices that the forward pass reports on a hit,
    the shortcut variant and the recomputing variant produce the same four
    vertex gradients when both start from zero accumulators. *)
Theorem shortcut_agrees_with_recomputing
    (r : tetra_isct T) (v_t_entry v_t_exit : T) :
  ray_tetra_intersection o d v0 v1 v2 v3 = (true, r) ->
  ray_tetra_intersection_vjp_shortcut o d v0 v1 v2 v3
    (entry_face_idx r) (exit_face_idx r) v_t_entry v_t_exit zero4
  = ray_tetra_intersection_vjp o d v0 v1 v2 v3 v_t_entry v_t_exit zero4.
Proof.
  intros Hfwd.
  unfold ray_tetra_intersection_vjp, ray_tetra_intersection_vjp_shortcut.
  rewrite Hfwd. cbn [negb].
  destruct (eqb v_t_entry (lit 0) && eqb v_t_exit (lit 0)); reflexivity.
Qed.

(** The triangle vjp overwrites its three outputs. *)
Lemma triangle_vjp_overwrites (a b c : vec3 T) (v_t : T) (acc : tri T) :
  ray_triangle_intersection_vjp o d a b c v_t acc
  = ray_triangle_intersection_vjp o d a b c v_t zero3.
Proof. destruct acc as [[x y] z]. reflexivity. Qed.

(** Past its early return, the recomputing variant overwrites its four
    accumulators. *)
Lemma tetra_vjp_overwrites (v_t_entry v_t_exit : T) (acc : grad4 T) :
  both_zero v_t_entry v_t_exit = false ->
  ray_tetra_intersection_vjp o d v0 v1 v2 v3 v_t_entry v_t_exit acc
  = ray_tetra_intersection_vjp o d v0 v1 v2 v3 v_t_entry v_t_exit zero4.
Proof.
  unfold both_zero, ray_tetra_intersection_vjp. intros ->. reflexivity.
Qed.
End TetraVjp.

(** ** Accumulation under the laws of addition *)

Section Accumulation.
Context {T : Type} `{Scalar T} `{!AddLaws T}.

Lemma vadd_assoc (a b c : vec3 T) : vadd (vadd a b) c = vadd a (vadd b c).
Proof. unfold vadd; cbn. now rewrite !add_assoc. Qed.

Lemma vadd_0_r (a : vec3 T) : vadd a (vsplat (lit 0)) = a.
Proof. destruct a. unfold vadd; cbn. now rewrite !add_0_r. Qed.

Lemma vadd_0_l (a : vec3 T) : vadd (vsplat (lit 0)) a = a.
Proof. destruct a. unfold vadd; cbn. now rewrite !add_0_l. Qed.

Lemma madd_assoc (a b c : mat3 T) : madd (madd a b) c = madd a (madd b c).
Proof. unfold madd; cbn. now rewrite !vadd_assoc. Qed.

Lemma madd_0_r (a : mat3 T) :
  madd a (mkmat3 (vsplat (lit 0)) (vsplat (lit 0)) (vsplat (lit 0))) = a.
Proof. destruct a. unfold madd; cbn. now rewrite !vadd_0_r. Qed.

Lemma madd_0_l (a : mat3 T) :
  madd (mkmat3 (vsplat (lit 0)) (vsplat (lit 0)) (vsplat (lit 0))) a = a.
Proof. destruct a. unfold madd; cbn. now rewrite !vadd_0_l. Qed.

Lemma grad4_add_0_r (a : grad4 T) : grad4_add a zero4 = a.
Proof. destruct a. unfold grad4_add, zero4; cbn. now rewrite !vadd_0_r. Qed.

Lemma gauss_grad_add_0_r (a : gauss_grad T) : gauss_grad_add a zero_gauss = a.
Proof.
  destruct a. unfold gauss_grad_add, zero_gauss; cbn.
  now rewrite vadd_0_r, madd_0_r, add_0_r.
Qed.

(** A [switch] adds the same increments whatever the accumulators hold. *)
Lemma scatter_shift (idx : Z) (g : tri T) (a b : grad4 T) :
  scatter idx g (grad4_add a b) = grad4_add a (scatter idx g b).
Proof.
  destruct g as [[f0 f1] f2], a as [a0 a1 a2 a3], b as [b0 b1 b2 b3].
  unfold scatter, grad4_add.
  destruct idx as [|p|p]; cbn; rewrite ?vadd_assoc; try reflexivity.
  destruct p as [[q|q|]|[q|q|]|]; cbn; rewrite ?vadd_assoc; reflexivity.
Qed.

(** The shortcut variant adds to what the caller passed in. *)
Lemma shortcut_accumulates (o d v0 v1 v2 v3 : vec3 T) (e x : Z)
    (v_t_entry v_t_exit : T) (acc : grad4 T) :
  ray_tetra_intersection_vjp_shortcut o d v0 v1 v2 v3 e x
    v_t_entry v_t_exit acc
  = option_map (grad4_add acc)
      (ray_tetra_intersection_vjp_shortcut o d v0 v1 v2 v3 e x
         v_t_entry v_t_exit zero4).
Proof.
  unfold ray_tetra_intersection_vjp_shortcut.
  destruct (eqb v_t_entry (lit 0) && eqb v_t_exit (lit 0)); cbn [option_map].
  - now rewrite grad4_add_0_r.
  - destruct (faces v0 v1 v2 v3 e) as [[[a b] c]|]; [|reflexivity].
    destruct (faces v0 v1 v2 v3 x) as [[[a' b'] c']|]; [|reflexivity].
    cbn [option_map]. now rewrite <- !scatter_shift, grad4_add_0_r.
Qed.

Context `{MathLib T}.

(** [integral_opacity_vjp] adds to what the caller passed in. *)
Lemma opacity_vjp_accumulates (density : T) (ray_o ray_d mean3d : vec3 T)
    (precision : mat3 T) (v_opacity : T) (acc : gauss_grad T) :
  integral_opacity_vjp density ray_o ray_d mean3d precision v_opacity acc
  = gauss_grad_add acc
      (integral_opacity_vjp density ray_o ray_d mean3d precision v_opacity
         zero_gauss).
Proof.
  unfold integral_opacity_vjp.
  destruct (eqb density (lit 0)); [now rewrite gauss_grad_add_0_r|].
  destruct (ltb (lit (1 # 1000000)) _); [|now rewrite gauss_grad_add_0_r].
  destruct acc as [m p s]. unfold gauss_grad_add, zero_gauss.
  cbn [v_mean3d v_precision v_density].
  now rewrite vadd_0_l, madd_0_l, add_0_l, !vadd_assoc, !madd_assoc.
Qed.
End Accumulation.

(** ** The routines over the reals *)

Module RFacts.
Import RInst.
Local Open Scope R_scope.

Lemma Rltb_true (x y : R) : Rltb x y = true <-> x < y.
Proof. unfold Rltb. destruct (Rlt_dec x y); split; auto; discriminate. Qed.

Lemma Rltb_false (x y : R) : Rltb x y = false <-> y <= x.
Proof.
  unfold Rltb. destruct (Rlt_dec x y); split; auto; try discriminate; lra.
Qed.

Lemma Reqb_true (x y : R) : Reqb x y = true <-> x = y.
Proof. unfold Reqb. destruct (Req_dec_T x y); split; auto; discriminate. Qed.

Lemma Reqb_false (x y : R) : Reqb x y = false <-> x <> y.
Proof.
  unfold Reqb. destruct (Req_dec_T x y); split; auto; try discriminate.
  intros Hne. contradiction.
Qed.

Lemma lit_0 : lit 0 = 0.
Proof. cbn. unfold Q2R. cbn. lra. Qed.

Lemma lit_1 : lit 1 = 1.
Proof. cbn. unfold Q2R. cbn. lra. Qed.

Lemma lit_2 : lit 2 = 2.
Proof. cbn. unfold Q2R. cbn. lra. Qed.

Lemma lit_half : lit (1 # 2) = / 2.
Proof. cbn. unfold Q2R. cbn. lra. Qed.

Lemma lit_eps6 : lit (1 # 1000000) = / 1000000.
Proof. cbn. unfold Q2R. cbn. lra. Qed.

Lemma lit_eps8 :
  lit (11258999 # 1125899906842624) = RealSpec.epsilon_f32.
Proof. cbn. unfold Q2R, RealSpec.epsilon_f32. cbn. lra. Qed.

(** The value of [1e-8f] is positive and below 1e-8. *)
Lemma epsilon_f32_bounds :
  0 < RealSpec.epsilon_f32 /\ RealSpec.epsilon_f32 < / 100000000.
Proof. unfold RealSpec.epsilon_f32. lra. Qed.
End RFacts.

Import RInst RFacts.

(** ** The triangle test over the reals *)

Section RealTriangle.
Import RealSpec RealScenario.
Local Open Scope R_scope.

Lemma triangle_unfold (o d v0 v1 v2 : vec3 R) :
  let e1 := vsub v1 v0 in
  let e2 := vsub v2 v0 in
  let h := cross d e2 in
  let a := dot e1 h in
  let f := 1 / a in
  let s := vsub o v0 in
  let q := cross s e1 in
  let u := f * dot s h in
  let v := f * dot d q in
  ray_triangle_intersection o d v0 v1 v2 =
  if Rltb (- epsilon_f32) a && Rltb a epsilon_f32 then None
  else if Rltb u 0 || Rltb 1 u then None
  else if Rltb v 0 || Rltb 1 (u + v) then None
  else Some (f * dot e2 q).
Proof.
  unfold ray_triangle_intersection.
  rewrite lit_eps8, lit_0, lit_1. reflexivity.
Qed.

Lemma parallel_test (eps a : R) :
  Rltb (- eps) a && Rltb a eps = true <-> Rabs a < eps.
Proof.
  rewrite andb_true_iff, !Rltb_true. split.
  - intros [Hlo Hhi]. apply Rabs_def1; assumption.
  - intros Habs. apply Rabs_def2 in Habs. tauto.
Qed.

Lemma outside_test (x y : R) :
  Rltb x 0 || Rltb 1 y = true <-> x < 0 \/ 1 < y.
Proof. now rewrite orb_true_iff, !Rltb_true. Qed.

(** The three outcomes of the test, for every ray and triangle, with the
    band of the code. *)
Lemma triangle_branches_hold (o d v0 v1 v2 : vec3 R) :
  triangle_branches_at epsilon_f32 o d v0 v1 v2.
Proof.
  cbv beta delta [triangle_branches_at]. intros e1 e2 h a f s q u v.
  pose proof (triangle_unfold o d v0 v1 v2) as E. cbv zeta in E.
  fold e1 e2 h a f s q u v in E. rewrite E. clear E.
  pose proof (parallel_test epsilon_f32 a) as Hpar.
  pose proof (outside_test u u) as Hu.
  pose proof (outside_test v (u + v)) as Hv.
  destruct (Rltb (- epsilon_f32) a && Rltb a epsilon_f32).
  - repeat split; try reflexivity; intros Hn; exfalso; apply Hn, Hpar;
      reflexivity.
  - split; [intros Habs; apply Hpar in Habs; discriminate|].
    destruct (Rltb u 0 || Rltb 1 u).
    + split; [reflexivity|]. intros _ Hin.
      assert (u < 0 \/ 1 < u) by (apply Hu; reflexivity). lra.
    + destruct (Rltb v 0 || Rltb 1 (u + v)).
      * split; [reflexivity|]. intros _ Hin.
        assert (v < 0 \/ 1 < u + v) by (apply Hv; reflexivity). lra.
      * split; [|reflexivity].
        intros _ [Hc|[Hc|[Hc|Hc]]]; exfalso.
        -- assert (false = true) by (apply Hu; auto). discriminate.
        -- assert (false = true) by (apply Hu; auto). discriminate.
        -- assert (false = true) by (apply Hv; auto). discriminate.
        -- assert (false = true) by (apply Hv; auto). discriminate.
Qed.

(** The test accepts the ray that starts below the triangle and points away
    from it. *)
Lemma below_ray_accepted :
  ray_triangle_intersection below_o down_d tri_v0 tri_v1 tri_v2 = Some (-1).
Proof.
  destruct (triangle_branches_hold below_o down_d tri_v0 tri_v1 tri_v2)
    as (_ & _ & Hacc).
  cbn in Hacc.
  match type of Hacc with
  | ~ Rabs ?A < _ -> _ => replace A with 1 in Hacc by ring
  end.
  pose proof epsilon_f32_bounds as Hb. unfold epsilon_f32 in *.
  rewrite Hacc.
  - f_equal. lra.
  - rewrite Rabs_R1. lra.
  - lra.
  - lra.
  - lra.
Qed.

(** ** C4 (amended): over the reals, with [a = e1.(d x e2)], [f = 1/a],
    [s = o - v0], [h = d x e2], [q = s x e1], [u = f*(s.h)] and
    [v = f*(d.q)]: the triangle test reports no hit when [|a| < EPSILON],
    where [EPSILON] is the value of the float literal [1e-8f], that is
    [11258999 * 2^-50], a little below 1e-8; otherwise it reports no hit when
    [u] is outside [0,1] or [v < 0] or [u + v > 1]; otherwise it reports a hit
    with [t = f*(e2.q)].  [t] is not clamped: some input is a hit with a
    negative [t]. *)
Theorem triangle_test_branches :
  (forall o d v0 v1 v2 : vec3 R,
     triangle_branches_at epsilon_f32 o d v0 v1 v2) /\
  (exists (o d v0 v1 v2 : vec3 R) (t : R),
     ray_triangle_intersection o d v0 v1 v2 = Some t /\ t < 0).
Proof.
  split; [exact triangle_branches_hold|].
  exists below_o, down_d, tri_v0, tri_v1, tri_v2, (-1).
  split; [exact below_ray_accepted|lra].
Qed.
End RealTriangle.

(** ** The integrator over the reals, for any [sqrtf], [__expf], [erff] *)

Section RealIntegrator.
Local Open Scope R_scope.
Context {M : MathLib R}.

(** ** C6: over the reals, with [mu = mean - origin],
    [a = dir.(precision*dir)] and [b = dir.(precision*mu)]: [integral] returns
    0 when [a <= 1e-6], and otherwise
    [1/2 * (erf (beta1*(tmax - beta2)) - erf (beta1*(tmin - beta2)))] with
    [beta1 = sqrt (a/2)] and [beta2 = b/a]. *)
Theorem integral_closed_form
    (ray_o ray_d : vec3 R) (tmin tmax : R) (mean3d : vec3 R)
    (precision : mat3 R) :
  let mu := vsub mean3d ray_o in
  let a := dot ray_d (mmulv precision ray_d) in
  let b := dot ray_d (mmulv precision mu) in
  let beta1 := sqrtf (a / 2) in
  let beta2 := b / a in
  (a <= / 1000000 ->
   integral ray_o ray_d tmin tmax mean3d precision = 0) /\
  (/ 1000000 < a ->
   integral ray_o ray_d tmin tmax mean3d precision
   = / 2 * (erff (beta1 * (tmax - beta2)) - erff (beta1 * (tmin - beta2)))).
Proof.
  intros mu a b beta1 beta2. unfold integral.
  rewrite lit_eps6, lit_half, lit_0. fold mu a b.
  change (ltb (/ 1000000) a) with (Rltb (/ 1000000) a).
  split; intros Ha.
  - apply Rltb_false in Ha. rewrite Ha. reflexivity.
  - apply Rltb_true in Ha. rewrite Ha.
    replace (mul a (/ 2)) with (a / 2) by (cbn; lra).
    reflexivity.
Qed.

(** ** C10: over the reals, swapping the two bounds of [integral] negates
    its result, in the guarded branch and in the erf branch. *)
Theorem integral_swap_bounds
    (ray_o ray_d : vec3 R) (tmin tmax : R) (mean3d : vec3 R)
    (precision : mat3 R) :
  integral ray_o ray_d tmin tmax mean3d precision
  = - integral ray_o ray_d tmax tmin mean3d precision.
Proof.
  unfold integral. rewrite lit_half, lit_0.
  destruct (ltb _ _); cbn; lra.
Qed.

(** ** C5: over the reals, with [mu = mean - origin],
    [rr = dir.(precision*dir)], [dr = mu.(precision*dir)],
    [dd = mu.(precision*mu)] and [cc = dd - dr^2/rr]: [integral_opacity]
    returns 0 when the density is 0, returns 0 when [rr <= 1e-6], and otherwise
    returns [1 - exp (-density * integral)] with
    [integral = 2 * exp (-cc/2) * sqrt (pi/(2*rr))], [pi] being the macro
    [PI]. *)
Theorem integral_opacity_closed_form
    (density : R) (ray_o ray_d mean3d : vec3 R) (precision : mat3 R) :
  let mu := vsub mean3d ray_o in
  let rr := dot ray_d (mmulv precision ray_d) in
  let dr := dot mu (mmulv precision ray_d) in
  let dd := dot mu (mmulv precision mu) in
  let cc := dd - dr * dr / rr in
  let integ := 2 * expf (- cc / 2) * sqrtf (PI_macro / (2 * rr)) in
  (density = 0 ->
   integral_opacity density ray_o ray_d mean3d precision = 0) /\
  (rr <= / 1000000 ->
   integral_opacity density ray_o ray_d mean3d precision = 0) /\
  (density <> 0 -> / 1000000 < rr ->
   integral_opacity density ray_o ray_d mean3d precision
   = 1 - expf (- (density * integ))).
Proof.
  intros mu rr dr dd cc integ. unfold integral_opacity.
  rewrite lit_eps6, lit_half, lit_0, lit_1, lit_2. fold mu rr dr dd.
  change (eqb density 0) with (Reqb density 0).
  change (ltb (/ 1000000) rr) with (Rltb (/ 1000000) rr).
  split; [|split].
  - intros Hd. apply Reqb_true in Hd. rewrite Hd. reflexivity.
  - intros Hrr. apply Rltb_false in Hrr. rewrite Hrr.
    destruct (Reqb density 0); reflexivity.
  - intros Hd Hrr. assert (Hpos : rr <> 0) by lra.
    apply Reqb_false in Hd. apply Rltb_true in Hrr. rewrite Hd, Hrr.
    cbn [add sub mul div neg RScalar].
    subst integ cc.
    f_equal. f_equal.
    replace (- / 2 * (dd - dr * dr * (1 / rr))) with (- (dd - dr * dr / rr) / 2)
      by (field; assumption).
    replace (/ 2 * PI_macro * (1 / rr)) with (PI_macro / (2 * rr))
      by (field; assumption).
    ring.
Qed.
End RealIntegrator.

(** ** What the vjp routines do with their accumulators *)

Section AccumulatorDiscipline.
Context {T : Type} `{Scalar T} `{!AddLaws T} `{MathLib T}.

(** ** C3 (amended): the triangle vjp sets its three outputs to zero before
    it accumulates, so no caller-provided value reaches its result; the
    recomputing tetrahedron vjp does the same for its four accumulators once it
    is past the early return for two zero upstream gradients; the shortcut
    tetrahedron vjp and [integral_opacity_vjp] never set their accumulators to
    zero: their result is the caller-provided value plus what they produce
    from zero accumulators. *)
Theorem vjp_accumulator_discipline :
  (forall (o d a b c : vec3 T) (v_t : T),
     starts_from_zero zero3 (ray_triangle_intersection_vjp o d a b c v_t)) /\
  (forall (o d v0 v1 v2 v3 : vec3 T) (v_t_entry v_t_exit : T),
     both_zero v_t_entry v_t_exit = false ->
     starts_from_zero zero4
       (ray_tetra_intersection_vjp o d v0 v1 v2 v3 v_t_entry v_t_exit)) /\
  (forall (o d v0 v1 v2 v3 : vec3 T) (e x : Z) (v_t_entry v_t_exit : T)
          (acc : grad4 T),
     ray_tetra_intersection_vjp_shortcut o d v0 v1 v2 v3 e x
       v_t_entry v_t_exit acc
     = option_map (grad4_add acc)
         (ray_tetra_intersection_vjp_shortcut o d v0 v1 v2 v3 e x
            v_t_entry v_t_exit zero4)) /\
  (forall (density : T) (ray_o ray_d mean3d : vec3 T) (precision : mat3 T)
          (v_opacity : T) (acc : gauss_grad T),
     integral_opacity_vjp density ray_o ray_d mean3d precision v_opacity acc
     = gauss_grad_add acc
         (integral_opacity_vjp density ray_o ray_d mean3d precision v_opacity
            zero_gauss)).
Proof.
  repeat split.
  - intros o d a b c v_t acc. apply triangle_vjp_overwrites.
  - intros o d v0 v1 v2 v3 v_t_entry v_t_exit Hnz acc.
    apply tetra_vjp_overwrites. exact Hnz.
  - intros. apply shortcut_accumulates.
  - intros. apply opacity_vjp_accumulates.
Qed.
End AccumulatorDiscipline.

(** ** The laws hold for the two instances *)

Section InstanceLaws.
Import QInst.

Lemma Qltb_true (x y : Q) : Qltb x y = true <-> (x < y)%Q.
Proof.
  unfold Qltb. rewrite Qlt_alt.
  destruct (x ?= y)%Q; split; auto; discriminate.
Qed.

Lemma Qltb_false (x y : Q) : Qltb x y = false <-> (y <= x)%Q.
Proof.
  rewrite <- Bool.not_true_iff_false, Qltb_true. split.
  - apply Qnot_lt_le.
  - apply Qle_not_lt.
Qed.

#[export] Instance QLtLaws : LtLaws Q.
Proof.
  split.
  - intros a b Hab. cbn in *. apply Qltb_true in Hab. apply Qltb_false.
    apply Qlt_le_weak. exact Hab.
  - intros a b c Hab. cbn in *. apply Qltb_true in Hab.
    destruct (Qlt_le_dec a c) as [Hac|Hca].
    + left. apply Qltb_true. exact Hac.
    + right. apply Qltb_true. apply Qle_lt_trans with a; assumption.
  - reflexivity.
Qed.

#[export] Instance RLtLaws : LtLaws R.
Proof.
  split.
  - intros a b Hab. cbn in *. apply Rltb_true in Hab. apply Rltb_false. lra.
  - intros a b c Hab. cbn in *. apply Rltb_true in Hab.
    destruct (Rlt_dec a c) as [Hac|Hca].
    + left. apply Rltb_true. exact Hac.
    + right. apply Rltb_true. lra.
  - cbn. apply Rltb_true. unfold Q2R. cbn. lra.
Qed.

#[export] Instance RAddLaws : AddLaws R.
Proof.
  split; intros; cbn; unfold Q2R; cbn; lra.
Qed.
End InstanceLaws.

(** ** The routines run on the example scenario *)

Section Examples.
Import QInst Scenario.

(** The four faces of the scenario, one by one. *)
Lemma scenario_faces :
  map (face_hit ray_o ray_d V0 V1 V2 V3) [0; 1; 2; 3]%Z
  = [Some 2; Some (6 # 5); None; None].
Proof. vm_compute. reflexivity. Qed.

(** ** C8 (amended): on the unit tetrahedron, the ray with origin
    (0.1, 0.1, 2) and direction (0, 0, -1) is a hit that enters through face 1
    at [t_entry = 1.2] and leaves through face 0 at [t_exit = 2]. *)
Theorem scenario_result :
  ray_tetra_intersection ray_o ray_d V0 V1 V2 V3
  = (true, mktetra_isct 1 0 (6 # 5) 2).
Proof. vm_compute. reflexivity. Qed.

(** C8 as worded fails: [t_entry] is 1.2, which is not 1.8 even up to 0.5. *)
Lemma scenario_entry_not_1_8 : ~ scenario_spec (1 # 2).
Proof.
  unfold scenario_spec.
  replace (ray_tetra_intersection ray_o ray_d V0 V1 V2 V3)
    with (true, mktetra_isct 1 0 (6 # 5) (2 : Q))
    by (vm_compute; reflexivity).
  intros (_ & _ & Happrox & _). vm_compute in Happrox.
  apply Happrox. reflexivity.
Qed.

(** From far away every hit value is above [1e10]: the test reports a hit
    but [entry_face_idx] is still [-1] and [t_entry] still [1e10]. *)
Lemma far_result :
  ray_tetra_intersection far_o ray_d V0 V1 V2 V3
  = (true, mktetra_isct (-1) 0 10000000000 20000000000).
Proof. vm_compute. reflexivity. Qed.

Lemma far_faces :
  map (face_hit far_o ray_d V0 V1 V2 V3) [0; 1; 2; 3]%Z
  = [Some 20000000000; Some (99999999996 # 5); None; None].
Proof. vm_compute. reflexivity. Qed.

(** C1 as worded fails on that input: the reported [t_entry] is the value of
    no face. *)
Lemma far_entry_not_min : ~ tetra_min_max_spec far_o ray_d V0 V1 V2 V3.
Proof.
  unfold tetra_min_max_spec. rewrite far_result.
  intros [_ Hmin]. destruct (Hmin eq_refl) as [[_ [Hface _]] _].
  vm_compute in Hface. discriminate.
Qed.

(** With a [-1] index behind a reported hit, the recomputing vjp reads
    [faces] out of bounds. *)
Lemma far_vjp_out_of_bounds :
  ray_tetra_intersection_vjp far_o ray_d V0 V1 V2 V3 1 1 zero4 = None.
Proof. vm_compute. reflexivity. Qed.

(** C1 (amended) at the scenario. *)
Lemma tetra_min_max_within_sentinels_witness :
  entry_is_first_min ray_o ray_d V0 V1 V2 V3 (mktetra_isct 1 0 (6 # 5) 2) /\
  exit_is_first_max ray_o ray_d V0 V1 V2 V3 (mktetra_isct 1 0 (6 # 5) 2).
Proof.
  pose proof (tetra_min_max_within_sentinels ray_o ray_d V0 V1 V2 V3) as Hthm.
  replace (ray_tetra_intersection ray_o ray_d V0 V1 V2 V3)
    with (true, mktetra_isct 1 0 (6 # 5) (2 : Q)) in Hthm
    by (vm_compute; reflexivity).
  destruct Hthm as [_ Hparts].
  destruct (Hparts eq_refl) as [Hentry Hexit].
  split.
  - apply Hentry. exists 1%Z, (6 # 5). split; reflexivity.
  - apply Hexit. exists 0%Z, 2. split; reflexivity.
Defined.

(** C2 at the scenario. *)
Lemma shortcut_agrees_with_recomputing_witness :
  ray_tetra_intersection_vjp_shortcut ray_o ray_d V0 V1 V2 V3 1 0 1 (1 # 2)
    zero4
  = ray_tetra_intersection_vjp ray_o ray_d V0 V1 V2 V3 1 (1 # 2) zero4.
Proof.
  apply (shortcut_agrees_with_recomputing ray_o ray_d V0 V1 V2 V3
           (r := mktetra_isct 1 0 (6 # 5) 2) 1 (1 # 2)).
  vm_compute. reflexivity.
Defined.

(** C7 at the scenario, with accumulators that are not zero. *)
Lemma vjp_zero_upstream_untouched_witness :
  ray_tetra_intersection_vjp ray_o ray_d V0 V1 V2 V3 0 0 stale4
    = Some stale4 /\
  ray_tetra_intersection_vjp_shortcut ray_o ray_d V0 V1 V2 V3 1 0 0 0 stale4
    = Some stale4.
Proof.
  apply (vjp_zero_upstream_untouched ray_o ray_d V0 V1 V2 V3 1 0 0 0 stale4);
    reflexivity.
Defined.

(** C9 at the scenario: with the index [-1] of a forward pass without a hit,
    the shortcut variant reads outside the table. *)
Lemma shortcut_in_bounds_iff_witness :
  (exists g, ray_tetra_intersection_vjp_shortcut ray_o ray_d V0 V1 V2 V3
               (-1) (-1) 1 1 zero4 = Some g)
  <-> (0 <= -1 < 4)%Z /\ (0 <= -1 < 4)%Z.
Proof.
  apply (shortcut_in_bounds_iff ray_o ray_d V0 V1 V2 V3 (-1) (-1) 1 1 zero4).
  reflexivity.
Defined.
End Examples.

(** ** The routines over the reals on concrete inputs *)

Section RealExamples.
Import QInst Scenario RealSpec RealScenario.
Local Open Scope R_scope.

(** C3 as worded fails: the shortcut variant and [integral_opacity_vjp] keep
    the values their accumulators hold on entry. *)
Lemma stale_values_survive :
  ~ starts_from_zero zero4
      (ray_tetra_intersection_vjp_shortcut ray_o ray_d V0 V1 V2 V3
         1 0 1%Q 1%Q) /\
  ~ starts_from_zero zero_gauss
      (integral_opacity_vjp 1 origin unit_z origin identity3 1).
Proof.
  split; intros Hzero.
  - specialize (Hzero stale4). vm_compute in Hzero. discriminate.
  - specialize (Hzero stale_gauss).
    rewrite opacity_vjp_accumulates in Hzero.
    apply (f_equal (@v_density R)) in Hzero.
    unfold gauss_grad_add, stale_gauss in Hzero.
    cbn [v_density add RScalar] in Hzero. lra.
Qed.

(** C3 (amended) over the reals. *)
Lemma vjp_accumulator_discipline_witness :
  starts_from_zero zero3
    (ray_triangle_intersection_vjp below_o down_d tri_v0 tri_v1 tri_v2 1) /\
  starts_from_zero zero4
    (ray_tetra_intersection_vjp below_o down_d tri_v0 tri_v1 tri_v2 unit_z
       1 1) /\
  ray_tetra_intersection_vjp_shortcut below_o down_d tri_v0 tri_v1 tri_v2
    unit_z 0 0 1 1 stale_grad4
  = option_map (grad4_add stale_grad4)
      (ray_tetra_intersection_vjp_shortcut below_o down_d tri_v0 tri_v1 tri_v2
         unit_z 0 0 1 1 zero4) /\
  integral_opacity_vjp 1 origin unit_z origin identity3 1 stale_gauss
  = gauss_grad_add stale_gauss
      (integral_opacity_vjp 1 origin unit_z origin identity3 1 zero_gauss).
Proof.
  destruct (vjp_accumulator_discipline (T := R)) as (Htri & Htet & Hsc & Hop).
  split; [apply Htri|]. split; [|split; [apply Hsc|apply Hop]].
  apply Htet. unfold both_zero. cbn [eqb RScalar].
  rewrite (proj2 (Reqb_false 1 (lit 0))); [reflexivity|].
  rewrite lit_0. lra.
Defined.

(** C4 on a ray that starts below the triangle and points away from it: the
    test accepts, with [t = -1]. *)
Lemma triangle_test_branches_witness :
  ray_triangle_intersection below_o down_d tri_v0 tri_v1 tri_v2 = Some (-1).
Proof.
  destruct triangle_test_branches as [Hall _].
  destruct (Hall below_o down_d tri_v0 tri_v1 tri_v2) as (_ & _ & Hacc).
  cbn in Hacc.
  match type of Hacc with
  | ~ Rabs ?A < _ -> _ => replace A with 1 in Hacc by ring
  end.
  unfold epsilon_f32 in *.
  rewrite Hacc.
  - f_equal. lra.
  - rewrite Rabs_R1. lra.
  - lra.
  - lra.
  - lra.
Defined.

(** C6 on the standard Gaussian at the origin, along z, between -1 and 1. *)
Lemma integral_closed_form_witness :
  integral origin unit_z (-1) 1 origin identity3
  = / 2 * (erf (sqrt (1 / 2) * (1 - 0)) - erf (sqrt (1 / 2) * (-1 - 0))).
Proof.
  destruct (integral_closed_form (M := RMath) origin unit_z (-1) 1 origin
              identity3) as [_ Hmain].
  cbn in Hmain.
  rewrite Hmain; [|lra].
  repeat (f_equal; try lra).
Defined.

(** C5 on the same Gaussian with density 1. *)
Lemma integral_opacity_closed_form_witness :
  integral_opacity 1 origin unit_z origin identity3
  = 1 - exp (- (1 * (2 * exp (- 0 / 2) * sqrt (PI_macro / (2 * 1))))).
Proof.
  destruct (integral_opacity_closed_form (M := RMath) 1 origin unit_z origin
              identity3) as (_ & _ & Hmain).
  cbn in Hmain.
  rewrite Hmain; [|lra|lra].
  repeat (f_equal; try lra).
Defined.
End RealExamples.

(** * Further properties of the routines *)

(** Expanding vector and matrix operations over the reals. *)
Ltac vreal :=
  unfold triangle_t, triangle_u, triangle_v, triangle_a,
         dot, cross, vsub, vadd, smulv, vmuls, vsplat in *;
  cbn [vx vy vz add sub mul div neg RScalar] in *;
  rewrite ?lit_0, ?lit_1 in *.

Ltac vdestruct :=
  repeat match goal with
         | p : vec3 R |- _ => destruct p
         end.

Ltac mreal :=
  unfold smulm in *;
  unfold mmulv, mmuls, madd, outerProduct in *;
  cbn [c0 c1 c2] in *; vreal.

Ltac mdestruct :=
  repeat match goal with
         | p : mat3 R |- _ => destruct p
         end;
  vdestruct.

(** ** The triangle test and the geometry of the ray *)

Section TriangleGeometry.
Import RealSpec RealGeom RealScenario.
Local Open Scope R_scope.

Lemma vec3_eq (a b : vec3 R) :
  vx a = vx b -> vy a = vy b -> vz a = vz b -> a = b.
Proof. destruct a, b; cbn; intros -> -> ->; reflexivity. Qed.

Lemma option_eq_of_imp (x y : option R) :
  (forall t, x = Some t -> y = Some t) ->
  (forall t, y = Some t -> x = Some t) -> x = y.
Proof.
  intros Hxy Hyx. destruct x as [t|].
  - symmetry. apply Hxy. reflexivity.
  - destruct y as [t|]; [|reflexivity]. apply Hyx. reflexivity.
Qed.

Lemma Rabs_band_nonzero (a : R) : epsilon_f32 <= Rabs a -> a <> 0.
Proof.
  intros Ha ->. rewrite Rabs_R0 in Ha.
  pose proof epsilon_f32_bounds. lra.
Qed.

(** A determinant outside the band [|a| < 1e-8] is outside the band of the
    code, [|a| < EPSILON]. *)
Lemma decimal_band_outside (a : R) :
  / 100000000 <= Rabs a -> epsilon_f32 <= Rabs a.
Proof. intros Ha. pose proof epsilon_f32_bounds. lra. Qed.

(** What a hit says about [a], [u], [v] and [t]. *)
Lemma triangle_hit_inv (o d v0 v1 v2 : vec3 R) (t : R) :
  ray_triangle_intersection o d v0 v1 v2 = Some t ->
  epsilon_f32 <= Rabs (triangle_a d v0 v1 v2) /\
  0 <= triangle_u o d v0 v1 v2 /\
  0 <= triangle_v o d v0 v1 v2 /\
  triangle_u o d v0 v1 v2 + triangle_v o d v0 v1 v2 <= 1 /\
  t = triangle_t o d v0 v1 v2.
Proof.
  intros Hhit.
  destruct (triangle_branches_hold o d v0 v1 v2) as (Hpar & Hout & Hacc).
  cbv zeta in Hpar, Hout, Hacc.
  unfold triangle_u, triangle_v, triangle_t, triangle_a. rewrite lit_1.
  cbn [mul div add RScalar].
  set (a := dot (vsub v1 v0) (cross d (vsub v2 v0))) in *.
  set (u := 1 / a * dot (vsub o v0) (cross d (vsub v2 v0))) in *.
  set (v := 1 / a * dot d (cross (vsub o v0) (vsub v1 v0))) in *.
  destruct (Rlt_dec (Rabs a) epsilon_f32) as [Hband|Hband].
  { rewrite (Hpar Hband) in Hhit. discriminate. }
  destruct (Rlt_dec u 0) as [Hu0|Hu0].
  { rewrite (Hout Hband) in Hhit; [discriminate|tauto]. }
  destruct (Rlt_dec 1 u) as [Hu1|Hu1].
  { rewrite (Hout Hband) in Hhit; [discriminate|tauto]. }
  destruct (Rlt_dec v 0) as [Hv0|Hv0].
  { rewrite (Hout Hband) in Hhit; [discriminate|tauto]. }
  destruct (Rlt_dec 1 (u + v)) as [Huv|Huv].
  { rewrite (Hout Hband) in Hhit; [discriminate|tauto]. }
  rewrite (Hacc Hband) in Hhit by lra.
  injection Hhit as <-. repeat split; lra.
Qed.

Lemma triangle_accept (o d v0 v1 v2 : vec3 R) :
  epsilon_f32 <= Rabs (triangle_a d v0 v1 v2) ->
  0 <= triangle_u o d v0 v1 v2 ->
  0 <= triangle_v o d v0 v1 v2 ->
  triangle_u o d v0 v1 v2 + triangle_v o d v0 v1 v2 <= 1 ->
  ray_triangle_intersection o d v0 v1 v2 = Some (triangle_t o d v0 v1 v2).
Proof.
  destruct (triangle_branches_hold o d v0 v1 v2) as (_ & _ & Hacc).
  cbv zeta in Hacc.
  unfold triangle_u, triangle_v, triangle_t, triangle_a. rewrite lit_1.
  cbn [mul div add RScalar].
  intros Ha Hu Hv Huv. apply Hacc; lra.
Qed.

(** A hit is a point of the triangle. *)
Lemma hit_point (o d v0 v1 v2 : vec3 R) (t : R) :
  ray_triangle_intersection o d v0 v1 v2 = Some t ->
  on_triangle (ray_point o d t) v0 v1 v2.
Proof.
  intros Hhit. apply triangle_hit_inv in Hhit.
  destruct Hhit as (Ha & Hu & Hv & Huv & ->).
  apply Rabs_band_nonzero in Ha.
  exists (triangle_u o d v0 v1 v2), (triangle_v o d v0 v1 v2).
  repeat split; try assumption.
  unfold ray_point. vdestruct. apply vec3_eq; vreal; field; exact Ha.
Qed.

(** A point of the triangle on the ray is a hit, outside the band around
    [a = 0]. *)
Lemma point_hit (o d v0 v1 v2 : vec3 R) (t : R) :
  epsilon_f32 <= Rabs (triangle_a d v0 v1 v2) ->
  on_triangle (ray_point o d t) v0 v1 v2 ->
  ray_triangle_intersection o d v0 v1 v2 = Some t.
Proof.
  intros Ha (u & v & Hu & Hv & Huv & Hpt).
  pose proof (Rabs_band_nonzero Ha) as Hnz.
  assert (Euvt : triangle_u o d v0 v1 v2 = u /\
                 triangle_v o d v0 v1 v2 = v /\
                 triangle_t o d v0 v1 v2 = t).
  { unfold ray_point in Hpt.
    destruct o as [ox oy oz], d as [dx dy dz], v0 as [ax ay az],
      v1 as [bx b_y bz], v2 as [cx cy cz].
    apply (f_equal (fun p => (vx p, vy p, vz p))) in Hpt.
    vreal. injection Hpt as Hx Hy Hz.
    assert (Eox : ox = ax + (u * (bx - ax) + v * (cx - ax)) - t * dx) by lra.
    assert (Eoy : oy = ay + (u * (b_y - ay) + v * (cy - ay)) - t * dy) by lra.
    assert (Eoz : oz = az + (u * (bz - az) + v * (cz - az)) - t * dz) by lra.
    subst ox oy oz. clear Hx Hy Hz.
    repeat split; field; exact Hnz. }
  destruct Euvt as (Eu & Ev & Et).
  rewrite <- Et. apply triangle_accept; rewrite ?Eu, ?Ev; assumption.
Qed.

(** ** X1: the triangle test returns [t] exactly when [|a| >= EPSILON], the
    value of the float literal [1e-8f] ([11258999 * 2^-50], a little below
    1e-8), and the point of the ray at parameter [t] lies in the triangle. *)
Theorem triangle_hit_iff_point (o d v0 v1 v2 : vec3 R) (t : R) :
  ray_triangle_intersection o d v0 v1 v2 = Some t
  <-> epsilon_f32 <= Rabs (triangle_a d v0 v1 v2) /\
      on_triangle (ray_point o d t) v0 v1 v2.
Proof.
  split.
  - intros Hhit. split.
    + apply (triangle_hit_inv _ _ _ _ _ Hhit).
    + apply hit_point. exact Hhit.
  - intros [Ha Hpt]. apply point_hit; assumption.
Qed.

Lemma triangle_a_swap (d v0 v1 v2 : vec3 R) :
  triangle_a d v0 v2 v1 = - triangle_a d v0 v1 v2.
Proof. vdestruct. vreal. ring. Qed.

Lemma triangle_a_rotate (d v0 v1 v2 : vec3 R) :
  triangle_a d v1 v2 v0 = triangle_a d v0 v1 v2.
Proof. vdestruct. vreal. ring. Qed.

Lemma triangle_swap_hit (o d v0 v1 v2 : vec3 R) (t : R) :
  ray_triangle_intersection o d v0 v1 v2 = Some t ->
  ray_triangle_intersection o d v0 v2 v1 = Some t.
Proof.
  intros Hhit.
  pose proof (triangle_hit_inv _ _ _ _ _ Hhit) as (Ha & _).
  destruct (hit_point _ _ _ _ _ Hhit) as (u & v & Hu & Hv & Huv & Hpt).
  apply point_hit.
  - rewrite triangle_a_swap, Rabs_Ropp. exact Ha.
  - exists v, u. repeat split; try lra.
    rewrite Hpt. vdestruct. apply vec3_eq; vreal; ring.
Qed.

Lemma triangle_rotate_hit (o d v0 v1 v2 : vec3 R) (t : R) :
  ray_triangle_intersection o d v0 v1 v2 = Some t ->
  ray_triangle_intersection o d v1 v2 v0 = Some t.
Proof.
  intros Hhit.
  pose proof (triangle_hit_inv _ _ _ _ _ Hhit) as (Ha & _).
  destruct (hit_point _ _ _ _ _ Hhit) as (u & v & Hu & Hv & Huv & Hpt).
  apply point_hit.
  - rewrite triangle_a_rotate. exact Ha.
  - exists v, (1 - u - v). repeat split; try lra.
    rewrite Hpt. vdestruct. apply vec3_eq; vreal; ring.
Qed.

(** ** X2: the triangle test does not depend on the order in which the three
    vertices are given: swapping two of them or rotating them gives the same
    result. *)
Theorem triangle_vertex_order (o d v0 v1 v2 : vec3 R) :
  ray_triangle_intersection o d v0 v2 v1
    = ray_triangle_intersection o d v0 v1 v2 /\
  ray_triangle_intersection o d v1 v2 v0
    = ray_triangle_intersection o d v0 v1 v2.
Proof.
  split; apply option_eq_of_imp; intros t Hhit.
  - apply triangle_swap_hit. exact Hhit.
  - apply triangle_swap_hit. exact Hhit.
  - do 2 apply triangle_rotate_hit. exact Hhit.
  - apply triangle_rotate_hit. exact Hhit.
Qed.

(** ** X4: multiplying the direction by [k <> 0] divides [t] by [k] and
    changes nothing else, as long as the determinant stays outside the band
    [|a| < 1e-8] for both directions. *)
Theorem triangle_direction_scaling (o d v0 v1 v2 : vec3 R) (k : R) :
  k <> 0 ->
  / 100000000 <= Rabs (triangle_a d v0 v1 v2) ->
  / 100000000 <= Rabs (triangle_a (smulv k d) v0 v1 v2) ->
  ray_triangle_intersection o (smulv k d) v0 v1 v2
  = option_map (fun t => t / k) (ray_triangle_intersection o d v0 v1 v2).
Proof.
  intros Hk Ha Hka.
  destruct (ray_triangle_intersection o d v0 v1 v2) as [t|] eqn:Hhit;
    cbn [option_map].
  - destruct (hit_point _ _ _ _ _ Hhit) as (u & v & Hu & Hv & Huv & Hpt).
    apply point_hit; [apply decimal_band_outside; exact Hka|].
    exists u, v. repeat split; try assumption.
    rewrite <- Hpt. unfold ray_point.
    vdestruct. apply vec3_eq; vreal; field; exact Hk.
  - destruct (ray_triangle_intersection o (smulv k d) v0 v1 v2) as [t'|]
      eqn:Hhit'; [|reflexivity].
    destruct (hit_point _ _ _ _ _ Hhit') as (u & v & Hu & Hv & Huv & Hpt).
    assert (Hback : ray_triangle_intersection o d v0 v1 v2 = Some (k * t')).
    { apply point_hit; [apply decimal_band_outside; exact Ha|].
      exists u, v. repeat split; try assumption.
      rewrite <- Hpt. unfold ray_point.
      vdestruct. apply vec3_eq; vreal; ring. }
    congruence.
Qed.

(** The triangle test only sees differences of points. *)
Lemma triangle_translate (o d v0 v1 v2 w : vec3 R) :
  ray_triangle_intersection (vadd o w) d (vadd v0 w) (vadd v1 w) (vadd v2 w)
  = ray_triangle_intersection o d v0 v1 v2.
Proof.
  unfold ray_triangle_intersection.
  replace (vsub (vadd v1 w) (vadd v0 w)) with (vsub v1 v0)
    by (vdestruct; apply vec3_eq; vreal; ring).
  replace (vsub (vadd v2 w) (vadd v0 w)) with (vsub v2 v0)
    by (vdestruct; apply vec3_eq; vreal; ring).
  replace (vsub (vadd o w) (vadd v0 w)) with (vsub o v0)
    by (vdestruct; apply vec3_eq; vreal; ring).
  reflexivity.
Qed.

Lemma face_hit_translate (o d v0 v1 v2 v3 w : vec3 R) (i : Z) :
  face_hit (vadd o w) d (vadd v0 w) (vadd v1 w) (vadd v2 w) (vadd v3 w) i
  = face_hit o d v0 v1 v2 v3 i.
Proof.
  unfold face_hit, faces.
  destruct i as [|p|p]; try reflexivity; [apply triangle_translate|].
  destruct p as [[q|q|]|[q|q|]|]; try reflexivity; apply triangle_translate.
Qed.

Lemma tetra_step_translate (o d v0 v1 v2 v3 w : vec3 R)
    (r : tetra_isct R) (i : Z) :
  tetra_step (vadd o w) d (vadd v0 w) (vadd v1 w) (vadd v2 w) (vadd v3 w) r i
  = tetra_step o d v0 v1 v2 v3 r i.
Proof. unfold tetra_step. rewrite face_hit_translate. reflexivity. Qed.

(** ** X3: moving the ray origin and all the vertices by the same vector [w]
    changes neither the result of the triangle test nor the result of the
    tetrahedron test. *)
Theorem intersection_translation (o d v0 v1 v2 v3 w : vec3 R) :
  ray_triangle_intersection (vadd o w) d (vadd v0 w) (vadd v1 w) (vadd v2 w)
    = ray_triangle_intersection o d v0 v1 v2 /\
  ray_tetra_intersection (vadd o w) d
    (vadd v0 w) (vadd v1 w) (vadd v2 w) (vadd v3 w)
    = ray_tetra_intersection o d v0 v1 v2 v3.
Proof.
  split; [apply triangle_translate|].
  unfold ray_tetra_intersection. cbn [fold_left].
  rewrite !tetra_step_translate. reflexivity.
Qed.
End TriangleGeometry.

(** ** Derivatives *)

Section Derivatives.
Local Open Scope R_scope.

Lemma deriv_limit_eq (f : R -> R) (x l l' : R) :
  derivable_pt_lim f x l -> l = l' -> derivable_pt_lim f x l'.
Proof. intros Hf <-. exact Hf. Qed.

Lemma deriv_const_fun (c x : R) : derivable_pt_lim (fun _ => c) x 0.
Proof. apply (derivable_pt_lim_const c x). Qed.

Lemma deriv_affine (n0 n1 x : R) :
  derivable_pt_lim (fun y => n0 + n1 * y) x n1.
Proof.
  apply derivable_pt_lim_ext with (f := (fct_cte n0 + mult_real_fct n1 id)%F).
  - intros z. reflexivity.
  - replace n1 with (0 + n1 * 1) at 2 by ring.
    apply derivable_pt_lim_plus.
    + apply derivable_pt_lim_const.
    + apply derivable_pt_lim_scal, derivable_pt_lim_id.
Qed.

Lemma deriv_scal (c : R) (f : R -> R) (x l : R) :
  derivable_pt_lim f x l ->
  derivable_pt_lim (fun y => c * f y) x (c * l).
Proof. intros Hf. apply (derivable_pt_lim_scal f c x l Hf). Qed.

Lemma deriv_plus (f g : R -> R) (x l1 l2 : R) :
  derivable_pt_lim f x l1 -> derivable_pt_lim g x l2 ->
  derivable_pt_lim (fun y => f y + g y) x (l1 + l2).
Proof. apply derivable_pt_lim_plus. Qed.

Lemma deriv_minus (f g : R -> R) (x l1 l2 : R) :
  derivable_pt_lim f x l1 -> derivable_pt_lim g x l2 ->
  derivable_pt_lim (fun y => f y - g y) x (l1 - l2).
Proof. apply derivable_pt_lim_minus. Qed.

Lemma deriv_mult (f g : R -> R) (x l1 l2 : R) :
  derivable_pt_lim f x l1 -> derivable_pt_lim g x l2 ->
  derivable_pt_lim (fun y => f y * g y) x (l1 * g x + f x * l2).
Proof. apply derivable_pt_lim_mult. Qed.

Lemma deriv_one_minus (f : R -> R) (x l : R) :
  derivable_pt_lim f x l ->
  derivable_pt_lim (fun y => 1 - f y) x (- l).
Proof.
  intros Hf. replace (- l) with (0 - l) by ring.
  apply (derivable_pt_lim_minus (fun _ => 1) f x 0 l); [|exact Hf].
  apply (derivable_pt_lim_const 1 x).
Qed.

Lemma deriv_inv (f : R -> R) (x l : R) :
  derivable_pt_lim f x l -> f x <> 0 ->
  derivable_pt_lim (fun y => 1 / f y) x ((0 * f x - l * 1) / Rsqr (f x)).
Proof.
  intros Hf Hnz.
  apply (derivable_pt_lim_div (fun _ => 1) f x 0 l); [|exact Hf|exact Hnz].
  apply (derivable_pt_lim_const 1 x).
Qed.

Lemma deriv_exp_comp (f : R -> R) (x l : R) :
  derivable_pt_lim f x l ->
  derivable_pt_lim (fun y => exp (f y)) x (exp (f x) * l).
Proof.
  intros Hf.
  apply (derivable_pt_lim_comp f exp x l (exp (f x)) Hf).
  apply derivable_pt_lim_exp.
Qed.

Lemma deriv_sqrt_comp (f : R -> R) (x l : R) :
  derivable_pt_lim f x l -> 0 < f x ->
  derivable_pt_lim (fun y => sqrt (f y)) x (/ (2 * sqrt (f x)) * l).
Proof.
  intros Hf Hpos.
  apply (derivable_pt_lim_comp f sqrt x l (/ (2 * sqrt (f x))) Hf).
  apply derivable_pt_lim_sqrt. exact Hpos.
Qed.

(** The derivative at 0 of a quadratic polynomial, read off three of its
    values. *)
Lemma deriv_quadratic (q : R -> R) :
  (forall s, q s = q 0 + (q 1 - q (-1)) / 2 * s
                   + ((q 1 + q (-1)) / 2 - q 0) * (s * s)) ->
  derivable_pt_lim q 0 ((q 1 - q (-1)) / 2).
Proof.
  intros Hq.
  set (a := q 0) in *. set (b := (q 1 - q (-1)) / 2) in *.
  set (c := (q 1 + q (-1)) / 2 - a) in *.
  apply derivable_pt_lim_ext with
    (f := fun s => (a + b * s) + c * (id s * id s)).
  - intros s. rewrite (Hq s). reflexivity.
  - assert (Hsq : derivable_pt_lim (fun s => c * (id s * id s)) 0
                    (c * (1 * id 0 + id 0 * 1))).
    { apply deriv_scal.
      apply (derivable_pt_lim_mult id id 0 1 1); apply derivable_pt_lim_id. }
    pose proof (derivable_pt_lim_plus _ _ 0 _ _ (deriv_affine a b 0) Hsq)
      as Hsum.
    replace (b + c * (1 * id 0 + id 0 * 1)) with b in Hsum
      by (unfold id; ring).
    exact Hsum.
Qed.

(** The derivative at 0 of [v_t * N / D] for [N] and [D] of degree one. *)
Lemma deriv_ratio_linear (phi N D : R -> R) (v_t l : R) :
  (forall x, phi x = v_t * (1 / D x * N x)) ->
  (forall x, N x = N 0 + (N 1 - N 0) * x) ->
  (forall x, D x = D 0 + (D 1 - D 0) * x) ->
  D 0 <> 0 ->
  l = v_t * (((N 1 - N 0) * D 0 - (D 1 - D 0) * N 0) / (D 0 * D 0)) ->
  derivable_pt_lim phi 0 l.
Proof.
  intros Hphi HN HD Hnz ->.
  apply derivable_pt_lim_ext with
    (f := mult_real_fct v_t
            (div_fct (fun x => N 0 + (N 1 - N 0) * x)
                     (fun x => D 0 + (D 1 - D 0) * x))).
  - intros z. unfold mult_real_fct, div_fct.
    rewrite Hphi, (HN z), (HD z). unfold Rdiv. ring.
  - apply derivable_pt_lim_scal.
    replace (((N 1 - N 0) * D 0 - (D 1 - D 0) * N 0) / (D 0 * D 0))
      with (((N 1 - N 0) * (D 0 + (D 1 - D 0) * 0)
             - (D 1 - D 0) * (N 0 + (N 1 - N 0) * 0))
            / Rsqr (D 0 + (D 1 - D 0) * 0))
      by (unfold Rsqr; field; exact Hnz).
    apply (derivable_pt_lim_div (fun x => N 0 + (N 1 - N 0) * x)
             (fun x => D 0 + (D 1 - D 0) * x) 0 (N 1 - N 0) (D 1 - D 0)).
    + apply deriv_affine.
    + apply deriv_affine.
    + rewrite Rmult_0_r, Rplus_0_r. exact Hnz.
Qed.
End Derivatives.

(** ** The triangle vjp is the gradient of [t] *)

Section TriangleGradient.
Import RealGeom RealScenario.
Local Open Scope R_scope.
Lemma triangle_grad_v0
    (o d v0 v1 v2 w : vec3 R) (v_t : R) (acc : tri R) :
  triangle_a d v0 v1 v2 <> 0 ->
  derivable_pt_lim
    (fun x => v_t * triangle_t o d (vadd v0 (smulv x w)) v1 v2) 0
    (dot (grad_v0 (ray_triangle_intersection_vjp o d v0 v1 v2 v_t acc)) w).
Proof.
  intros Ha. destruct acc as [[acc0 acc1] acc2].
  unfold ray_triangle_intersection_vjp, grad_v0. cbn [fst snd].
  apply deriv_ratio_linear with
    (N := fun x =>
            dot (vsub v2 (vadd v0 (smulv x w)))
                (cross (vsub o (vadd v0 (smulv x w)))
                       (vsub v1 (vadd v0 (smulv x w)))))
    (D := fun x => triangle_a d (vadd v0 (smulv x w)) v1 v2)
    (v_t := v_t).
  - intros x. vreal. reflexivity.
  - intros x. vdestruct. vreal. ring.
  - intros x. vdestruct. vreal. ring.
  - vdestruct. vreal. intros E. apply Ha. rewrite <- E. ring.
  - vdestruct. vreal. field. exact Ha.
Qed.

Lemma triangle_grad_v1
    (o d v0 v1 v2 w : vec3 R) (v_t : R) (acc : tri R) :
  triangle_a d v0 v1 v2 <> 0 ->
  derivable_pt_lim
    (fun x => v_t * triangle_t o d v0 (vadd v1 (smulv x w)) v2) 0
    (dot (grad_v1 (ray_triangle_intersection_vjp o d v0 v1 v2 v_t acc)) w).
Proof.
  intros Ha. destruct acc as [[acc0 acc1] acc2].
  unfold ray_triangle_intersection_vjp, grad_v1. cbn [fst snd].
  apply deriv_ratio_linear with
    (N := fun x =>
            dot (vsub v2 v0)
                (cross (vsub o v0) (vsub (vadd v1 (smulv x w)) v0)))
    (D := fun x => triangle_a d v0 (vadd v1 (smulv x w)) v2)
    (v_t := v_t).
  - intros x. vreal. reflexivity.
  - intros x. vdestruct. vreal. ring.
  - intros x. vdestruct. vreal. ring.
  - vdestruct. vreal. intros E. apply Ha. rewrite <- E. ring.
  - vdestruct. vreal. field. exact Ha.
Qed.

Lemma triangle_grad_v2
    (o d v0 v1 v2 w : vec3 R) (v_t : R) (acc : tri R) :
  triangle_a d v0 v1 v2 <> 0 ->
  derivable_pt_lim
    (fun x => v_t * triangle_t o d v0 v1 (vadd v2 (smulv x w))) 0
    (dot (grad_v2 (ray_triangle_intersection_vjp o d v0 v1 v2 v_t acc)) w).
Proof.
  intros Ha. destruct acc as [[acc0 acc1] acc2].
  unfold ray_triangle_intersection_vjp, grad_v2. cbn [fst snd].
  apply deriv_ratio_linear with
    (N := fun x =>
            dot (vsub (vadd v2 (smulv x w)) v0)
                (cross (vsub o v0) (vsub v1 v0)))
    (D := fun x => triangle_a d v0 v1 (vadd v2 (smulv x w)))
    (v_t := v_t).
  - intros x. vreal. reflexivity.
  - intros x. vdestruct. vreal. ring.
  - intros x. vdestruct. vreal. ring.
  - vdestruct. vreal. intros E. apply Ha. rewrite <- E. ring.
  - vdestruct. vreal. field. exact Ha.
Qed.

(** ** X5: where [a <> 0], the three vectors that the triangle vjp returns
    are [v_t] times the gradient of [t = f*(e2.q)] with respect to [v0], [v1]
    and [v2]: for every direction [w], the derivative of [v_t * t] along [w]
    at each vertex is the dot product of the returned vector with [w]. *)
Theorem triangle_vjp_is_gradient
    (o d v0 v1 v2 w : vec3 R) (v_t : R) (acc : tri R) :
  triangle_a d v0 v1 v2 <> 0 ->
  let g := ray_triangle_intersection_vjp o d v0 v1 v2 v_t acc in
  derivable_pt_lim
    (fun x => v_t * triangle_t o d (vadd v0 (smulv x w)) v1 v2) 0
    (dot (grad_v0 g) w) /\
  derivable_pt_lim
    (fun x => v_t * triangle_t o d v0 (vadd v1 (smulv x w)) v2) 0
    (dot (grad_v1 g) w) /\
  derivable_pt_lim
    (fun x => v_t * triangle_t o d v0 v1 (vadd v2 (smulv x w))) 0
    (dot (grad_v2 g) w).
Proof.
  intros Ha. cbv zeta. split; [|split].
  - apply triangle_grad_v0. exact Ha.
  - apply triangle_grad_v1. exact Ha.
  - apply triangle_grad_v2. exact Ha.
Qed.
End TriangleGradient.

(** ** The tetrahedron test, for every scalar type *)

Section TetraWellFormed.
Context {T : Type} `{Scalar T}.
Variables o d v0 v1 v2 v3 : vec3 T.

Lemma sel_ok_step before (hitf : Z -> option T) init k s :
  (0 <= k)%Z ->
  sel_ok hitf init k s ->
  sel_ok hitf init (k + 1)
    (match hitf k with Some t => sel_step before s k t | None => s end).
Proof.
  intros Hk Hok.
  assert (Hkeep : sel_ok hitf init (k + 1) s).
  { destruct Hok as [Hinit|[Hr Hf]]; [left; exact Hinit|right].
    split; [lia|exact Hf]. }
  destruct (hitf k) as [t|] eqn:Hhit; [|exact Hkeep].
  unfold sel_step. destruct (before t (snd s)); [|exact Hkeep].
  right. cbn [fst snd]. split; [lia|exact Hhit].
Qed.

Lemma tetra_loop_ok :
  let r := fold_left (tetra_step o d v0 v1 v2 v3) [0; 1; 2; 3]%Z tetra_init in
  sel_ok (face_hit o d v0 v1 v2 v3) (lit 10000000000) 4 (entry_sel r) /\
  sel_ok (face_hit o d v0 v1 v2 v3) (neg (lit 10000000000)) 4 (exit_sel r).
Proof.
  cbn [fold_left]. split.
  - rewrite !tetra_step_entry.
    apply (sel_ok_step ltb (k := 3)); [lia|].
    apply (sel_ok_step ltb (k := 2)); [lia|].
    apply (sel_ok_step ltb (k := 1)); [lia|].
    apply (sel_ok_step ltb (k := 0)); [lia|].
    left. split; reflexivity.
  - rewrite !tetra_step_exit.
    apply (sel_ok_step (fun a b => ltb b a) (k := 3)); [lia|].
    apply (sel_ok_step (fun a b => ltb b a) (k := 2)); [lia|].
    apply (sel_ok_step (fun a b => ltb b a) (k := 1)); [lia|].
    apply (sel_ok_step (fun a b => ltb b a) (k := 0)); [lia|].
    left. split; reflexivity.
Qed.

(** Each index of the result is [-1] with its [t] still at the initial
    value, or a face of the table together with the value that face is hit
    at. *)
Lemma tetra_result_ok :
  let (hit, r) := ray_tetra_intersection o d v0 v1 v2 v3 in
  ((entry_face_idx r = (-1)%Z /\ t_entry r = lit 10000000000) \/
   ((0 <= entry_face_idx r < 4)%Z /\
    face_hit o d v0 v1 v2 v3 (entry_face_idx r) = Some (t_entry r))) /\
  ((exit_face_idx r = (-1)%Z /\ t_exit r = neg (lit 10000000000)) \/
   ((0 <= exit_face_idx r < 4)%Z /\
    face_hit o d v0 v1 v2 v3 (exit_face_idx r) = Some (t_exit r))).
Proof.
  unfold ray_tetra_intersection.
  destruct tetra_loop_ok as [He Hx].
  set (r := fold_left _ _ _) in *.
  unfold sel_ok, entry_sel, exit_sel in He, Hx. cbn [fst snd] in He, Hx.
  destruct ((entry_face_idx r <? 0)%Z && (exit_face_idx r <? 0)%Z);
    split; assumption.
Qed.

(** ** X6: for every scalar type, each face index that the tetrahedron test
    returns is either [-1], with its [t] still at the initial value, or an
    index of the table whose face is hit at exactly the returned [t]; and the
    test reports no hit exactly when all four outputs still have their
    initial values. *)
Theorem tetra_result_well_formed :
  let (hit, r) := ray_tetra_intersection o d v0 v1 v2 v3 in
  ((entry_face_idx r = (-1)%Z /\ t_entry r = lit 10000000000) \/
   ((0 <= entry_face_idx r < 4)%Z /\
    face_hit o d v0 v1 v2 v3 (entry_face_idx r) = Some (t_entry r))) /\
  ((exit_face_idx r = (-1)%Z /\ t_exit r = neg (lit 10000000000)) \/
   ((0 <= exit_face_idx r < 4)%Z /\
    face_hit o d v0 v1 v2 v3 (exit_face_idx r) = Some (t_exit r))) /\
  (hit = false <-> r = tetra_init).
Proof.
  pose proof tetra_result_ok as Hok.
  unfold ray_tetra_intersection in *.
  set (r := fold_left _ _ _) in *.
  assert (Hflag :
    ((entry_face_idx r <? 0)%Z && (exit_face_idx r <? 0)%Z = true
     <-> r = tetra_init)).
  { assert (Hok' := Hok).
    destruct ((entry_face_idx r <? 0)%Z && (exit_face_idx r <? 0)%Z) eqn:Eb.
    - destruct Hok' as [He Hx]. apply andb_true_iff in Eb.
      rewrite !Z.ltb_lt in Eb. destruct Eb as [Hne Hnx].
      destruct He as [[He1 He2]|[He1 _]]; [|lia].
      destruct Hx as [[Hx1 Hx2]|[Hx1 _]]; [|lia].
      split; [intros _|reflexivity].
      destruct r as [ei xi te tx]. cbn in *. subst. reflexivity.
    - split; [discriminate|]. intros Hinit. rewrite Hinit in Eb.
      cbn in Eb. discriminate. }
  destruct ((entry_face_idx r <? 0)%Z && (exit_face_idx r <? 0)%Z).
  - destruct Hok as [He Hx].
    repeat split; try assumption; intros; try reflexivity.
    apply Hflag. reflexivity.
  - destruct Hok as [He Hx]. repeat split; try assumption; try discriminate.
    intros Hinit. apply Hflag in Hinit. discriminate.
Qed.

(** The recomputing vjp reads out of bounds exactly behind a reported hit
    with an index still at [-1]. *)
Lemma vjp_none_iff (v_t_entry v_t_exit : T) (acc : grad4 T) :
  ray_tetra_intersection_vjp o d v0 v1 v2 v3 v_t_entry v_t_exit acc = None
  <-> both_zero v_t_entry v_t_exit = false /\
      exists r, ray_tetra_intersection o d v0 v1 v2 v3 = (true, r) /\
                (entry_face_idx r = (-1)%Z \/ exit_face_idx r = (-1)%Z).
Proof.
  pose proof tetra_result_ok as Hwf.
  unfold ray_tetra_intersection_vjp, both_zero.
  destruct (eqb v_t_entry (lit 0) && eqb v_t_exit (lit 0)).
  { split; [discriminate|intros [Hf _]; discriminate]. }
  destruct (ray_tetra_intersection o d v0 v1 v2 v3) as [hit r].
  destruct Hwf as (He & Hx).
  destruct hit; cbn [negb].
  2:{ split; [discriminate|]. intros [_ [r' [Hr' _]]]. discriminate. }
  split.
  - intros Hnone. split; [reflexivity|]. exists r. split; [reflexivity|].
    destruct He as [[He _]|[He _]]; [left; exact He|].
    destruct Hx as [[Hx _]|[Hx _]]; [right; exact Hx|].
    exfalso.
    apply (faces_in_range v0 v1 v2 v3) in He, Hx.
    destruct He as [[[a b] c] Fe]. destruct Hx as [[[a' b'] c'] Fx].
    rewrite Fe, Fx in Hnone. discriminate.
  - intros [_ [r' [Hr' Hidx]]]. injection Hr' as <-.
    destruct Hidx as [Hi|Hi].
    + rewrite Hi. reflexivity.
    + rewrite Hi.
      destruct (faces v0 v1 v2 v3 (entry_face_idx r)) as [[[a b] c]|];
        reflexivity.
Qed.

(** ** X7: for every scalar type, the recomputing vjp reads [faces] out of
    bounds exactly when some upstream gradient is nonzero and the forward pass
    reports a hit with [entry_face_idx] or [exit_face_idx] still [-1]; when
    the forward pass reports no hit (and some upstream gradient is nonzero)
    it returns zero accumulators. *)
Theorem tetra_vjp_out_of_bounds_iff
    (v_t_entry v_t_exit : T) (acc : grad4 T) :
  (ray_tetra_intersection_vjp o d v0 v1 v2 v3 v_t_entry v_t_exit acc = None
   <-> both_zero v_t_entry v_t_exit = false /\
       exists r, ray_tetra_intersection o d v0 v1 v2 v3 = (true, r) /\
                 (entry_face_idx r = (-1)%Z \/ exit_face_idx r = (-1)%Z)) /\
  (both_zero v_t_entry v_t_exit = false ->
   fst (ray_tetra_intersection o d v0 v1 v2 v3) = false ->
   ray_tetra_intersection_vjp o d v0 v1 v2 v3 v_t_entry v_t_exit acc
   = Some zero4).
Proof.
  split; [apply vjp_none_iff|].
  unfold both_zero, ray_tetra_intersection_vjp. intros -> Hmiss.
  destruct (ray_tetra_intersection o d v0 v1 v2 v3) as [hit r].
  cbn [fst] in Hmiss. subst hit. reflexivity.
Qed.

(** ** X10: a [switch] of the vjp routines agrees with the face table: read
    through the table at [idx], the accumulators after the [switch] are the
    ones before it plus the three face gradients, position by position, and
    the accumulator of the vertex that face [idx] leaves out is unchanged; for
    an index outside the table the [switch] changes nothing. *)
Theorem scatter_matches_faces
    (idx : Z) (f0 f1 f2 : vec3 T) (acc : grad4 T) :
  match faces_of acc idx with
  | Some (a0, a1, a2) =>
      faces_of (scatter idx (f0, f1, f2) acc) idx
        = Some (vadd a0 f0, vadd a1 f1, vadd a2 f2) /\
      opposite_of (scatter idx (f0, f1, f2) acc) idx = opposite_of acc idx
  | None => scatter idx (f0, f1, f2) acc = acc
  end.
Proof.
  destruct acc as [a0 a1 a2 a3]. unfold faces_of, opposite_of.
  cbn [g_v0 g_v1 g_v2 g_v3].
  destruct idx as [|p|p]; cbn; auto.
  destruct p as [[q|q|]|[q|q|]|]; cbn; auto.
Qed.
End TetraWellFormed.

(** ** The tetrahedron test, for ordered scalars *)

Section TetraOrdered.
Context {T : Type} `{Scalar T} `{!LtLaws T}.
Variables o d v0 v1 v2 v3 : vec3 T.

(** ** X9: for scalars ordered by [<], the tetrahedron test reports a hit
    exactly when the returned [t_exit] is not below the returned [t_entry];
    in particular [t_entry <= t_exit] on every hit. *)
Theorem tetra_hit_iff_ordered :
  let (hit, r) := ray_tetra_intersection o d v0 v1 v2 v3 in
  hit = true <-> ltb (t_exit r) (t_entry r) = false.
Proof.
  unfold ray_tetra_intersection.
  destruct (tetra_loop_inv o d v0 v1 v2 v3) as [[Ha He] [Hb Hx]].
  set (r := fold_left _ _ _) in *.
  unfold entry_sel, exit_sel in *. cbn [fst snd] in *.
  destruct (entry_face_idx r <? 0)%Z eqn:Ee;
    [destruct (exit_face_idx r <? 0)%Z eqn:Ex|]; cbn [andb].
  - apply Z.ltb_lt in Ee, Ex.
    destruct He as [[_ He]|[He _]]; [|lia].
    destruct Hx as [[_ Hx]|[Hx _]]; [|lia].
    rewrite He, Hx. unfold BIG. rewrite ltb_sentinels.
    split; discriminate.
  - apply Z.ltb_ge in Ex.
    destruct Hx as [[Hx _]|(Hxr & Hxf & _)]; [lia|].
    split; [intros _|reflexivity].
    apply (Ha (exit_face_idx r)); [lia|exact Hxf].
  - apply Z.ltb_ge in Ee.
    destruct He as [[He _]|(Her & Hef & _)]; [lia|].
    split; [intros _|reflexivity].
    apply (Hb (entry_face_idx r) (t_entry r)); [lia|exact Hef].
Qed.

(** ** X8: for scalars ordered by [<], when every face that is hit is hit
    strictly between [-1e10] and [1e10], the recomputing vjp never reads
    [faces] out of bounds. *)
Theorem tetra_vjp_in_bounds (v_t_entry v_t_exit : T) (acc : grad4 T) :
  (forall i t, face_hit o d v0 v1 v2 v3 i = Some t ->
               ltb t BIG = true /\ ltb (neg BIG) t = true) ->
  exists g,
    ray_tetra_intersection_vjp o d v0 v1 v2 v3 v_t_entry v_t_exit acc = Some g.
Proof.
  intros Hrange.
  destruct (ray_tetra_intersection_vjp o d v0 v1 v2 v3 v_t_entry v_t_exit acc)
    as [g|] eqn:Hvjp; [eauto|exfalso].
  apply vjp_none_iff in Hvjp.
  destruct Hvjp as [_ [r [Hfwd Hidx]]].
  pose proof (tetra_loop_inv o d v0 v1 v2 v3) as [He Hx].
  pose proof (tetra_result_ok o d v0 v1 v2 v3) as Hwf.
  unfold ray_tetra_intersection in Hfwd, Hwf.
  set (r0 := fold_left _ _ _) in *.
  destruct ((entry_face_idx r0 <? 0)%Z && (exit_face_idx r0 <? 0)%Z) eqn:Eb;
    [discriminate|].
  injection Hfwd as <-.
  destruct Hwf as (We & Wx).
  assert (Hsome : exists i t, face_hit o d v0 v1 v2 v3 i = Some t).
  { apply andb_false_iff in Eb. destruct Eb as [Eb|Eb]; apply Z.ltb_ge in Eb.
    - destruct We as [[We _]|[_ We]]; [lia|eauto].
    - destruct Wx as [[Wx _]|[_ Wx]]; [lia|eauto]. }
  destruct Hsome as (i & t & Hhit). destruct (Hrange i t Hhit) as [Hlo Hhi].
  destruct Hidx as [Hi|Hi].
  - assert (Hm : (0 <= fst (entry_sel r0))%Z)
      by (eapply sel_inv_moved; [exact He|exact Hhit|exact Hlo]).
    unfold entry_sel in Hm. cbn [fst] in Hm. lia.
  - assert (Hm : (0 <= fst (exit_sel r0))%Z)
      by (eapply sel_inv_moved; [exact Hx|exact Hhit|exact Hhi]).
    unfold exit_sel in Hm. cbn [fst] in Hm. lia.
Qed.
End TetraOrdered.

(** ** The tetrahedron vjp routines are gradients *)

Section TetraGradient.
Import RealGeom.
Local Open Scope R_scope.
Variables o d v0 v1 v2 v3 w : vec3 R.

Lemma dot_zero_l (a : vec3 R) : dot (vsplat (lit 0)) a = 0.
Proof. destruct a. vreal. ring. Qed.

Lemma dot_vadd_l (a b c : vec3 R) : dot (vadd a b) c = dot a c + dot b c.
Proof. destruct a, b, c. vreal. ring. Qed.

Ltac face_case :=
  match goal with
  | |- derivable_pt_lim (fun _ => _ * triangle_t _ _ _ _ _) _ _ =>
      first
        [ rewrite dot_zero_l; apply deriv_const_fun
        | rewrite dot_vadd_l, dot_zero_l, Rplus_0_l; assumption ]
  end.

Ltac face_gradients a b c v_t Ha :=
  pose proof (@triangle_grad_v0 o d a b c w v_t zero3 Ha) as G0;
  pose proof (@triangle_grad_v1 o d a b c w v_t zero3 Ha) as G1;
  pose proof (@triangle_grad_v2 o d a b c w v_t zero3 Ha) as G2;
  destruct (ray_triangle_intersection_vjp o d a b c v_t zero3)
    as [[f0 f1] f2];
  unfold grad_v0, grad_v1, grad_v2 in *; cbn [fst snd] in *;
  unfold scatter, zero4; cbn [g_v0 g_v1 g_v2 g_v3];
  repeat split; face_case.

(** The contribution of one face is [v_t] times the gradient of the [t] of
    that face with respect to the four vertices. *)
Lemma face_grad_is_gradient (i : Z) (v_t : R) :
  (0 <= i < 4)%Z ->
  tetra_face_a d v0 v1 v2 v3 i <> 0 ->
  let g := face_grad o d v0 v1 v2 v3 i v_t in
  derivable_pt_lim
    (fun s => v_t * tetra_face_t o d (vadd v0 (smulv s w)) v1 v2 v3 i) 0
    (dot (g_v0 g) w) /\
  derivable_pt_lim
    (fun s => v_t * tetra_face_t o d v0 (vadd v1 (smulv s w)) v2 v3 i) 0
    (dot (g_v1 g) w) /\
  derivable_pt_lim
    (fun s => v_t * tetra_face_t o d v0 v1 (vadd v2 (smulv s w)) v3 i) 0
    (dot (g_v2 g) w) /\
  derivable_pt_lim
    (fun s => v_t * tetra_face_t o d v0 v1 v2 (vadd v3 (smulv s w)) i) 0
    (dot (g_v3 g) w).
Proof.
  intros Hi Ha g. subst g.
  assert (Hc : (i = 0 \/ i = 1 \/ i = 2 \/ i = 3)%Z) by lia.
  unfold tetra_face_a, tetra_face_t, face_grad in *.
  destruct Hc as [Hc|[Hc|[Hc|Hc]]]; subst i; cbn [faces] in *.
  - face_gradients v0 v1 v2 v_t Ha.
  - face_gradients v1 v2 v3 v_t Ha.
  - face_gradients v2 v3 v0 v_t Ha.
  - face_gradients v3 v0 v1 v_t Ha.
Qed.

(** The contributions of the entry face and of the exit face add up. *)
Lemma two_faces_gradient (e x : Z) (v_t_entry v_t_exit : R) :
  (0 <= e < 4)%Z -> (0 <= x < 4)%Z ->
  tetra_face_a d v0 v1 v2 v3 e <> 0 ->
  tetra_face_a d v0 v1 v2 v3 x <> 0 ->
  let g := grad4_add (face_grad o d v0 v1 v2 v3 e v_t_entry)
                     (face_grad o d v0 v1 v2 v3 x v_t_exit) in
  derivable_pt_lim
    (fun s => v_t_entry * tetra_face_t o d (vadd v0 (smulv s w)) v1 v2 v3 e
              + v_t_exit * tetra_face_t o d (vadd v0 (smulv s w)) v1 v2 v3 x)
    0 (dot (g_v0 g) w) /\
  derivable_pt_lim
    (fun s => v_t_entry * tetra_face_t o d v0 (vadd v1 (smulv s w)) v2 v3 e
              + v_t_exit * tetra_face_t o d v0 (vadd v1 (smulv s w)) v2 v3 x)
    0 (dot (g_v1 g) w) /\
  derivable_pt_lim
    (fun s => v_t_entry * tetra_face_t o d v0 v1 (vadd v2 (smulv s w)) v3 e
              + v_t_exit * tetra_face_t o d v0 v1 (vadd v2 (smulv s w)) v3 x)
    0 (dot (g_v2 g) w) /\
  derivable_pt_lim
    (fun s => v_t_entry * tetra_face_t o d v0 v1 v2 (vadd v3 (smulv s w)) e
              + v_t_exit * tetra_face_t o d v0 v1 v2 (vadd v3 (smulv s w)) x)
    0 (dot (g_v3 g) w).
Proof.
  intros He Hx Hae Hax g. subst g.
  destruct (@face_grad_is_gradient e v_t_entry He Hae) as (E0 & E1 & E2 & E3).
  destruct (@face_grad_is_gradient x v_t_exit Hx Hax) as (X0 & X1 & X2 & X3).
  cbv zeta in *.
  unfold grad4_add. cbn [g_v0 g_v1 g_v2 g_v3]. rewrite !dot_vadd_l.
  repeat split.
  - apply (derivable_pt_lim_plus _ _ _ _ _ E0 X0).
  - apply (derivable_pt_lim_plus _ _ _ _ _ E1 X1).
  - apply (derivable_pt_lim_plus _ _ _ _ _ E2 X2).
  - apply (derivable_pt_lim_plus _ _ _ _ _ E3 X3).
Qed.

Lemma shortcut_is_sum (e x : Z) (v_t_entry v_t_exit : R) :
  (0 <= e < 4)%Z -> (0 <= x < 4)%Z ->
  both_zero v_t_entry v_t_exit = false ->
  ray_tetra_intersection_vjp_shortcut o d v0 v1 v2 v3 e x
    v_t_entry v_t_exit zero4
  = Some (grad4_add (face_grad o d v0 v1 v2 v3 e v_t_entry)
                    (face_grad o d v0 v1 v2 v3 x v_t_exit)).
Proof.
  intros He Hx Hnz.
  unfold ray_tetra_intersection_vjp_shortcut, face_grad.
  unfold both_zero in Hnz. rewrite Hnz.
  apply (faces_in_range v0 v1 v2 v3) in He, Hx.
  destruct He as [[[a b] c] ->]. destruct Hx as [[[a' b'] c'] ->].
  f_equal.
  rewrite <- (grad4_add_0_r (scatter e _ zero4)) at 1.
  apply scatter_shift.
Qed.

Lemma both_zero_real (a b : R) : both_zero a b = true -> a = 0 /\ b = 0.
Proof.
  unfold both_zero. cbn [eqb RScalar].
  rewrite andb_true_iff, !Reqb_true, lit_0. tauto.
Qed.

(** ** X11: with both face indices in [0..3] and both faces non-degenerate
    ([a <> 0]), the four vectors that the shortcut vjp produces from zero
    accumulators are the gradient of
    [v_t_entry * t(entry face) + v_t_exit * t(exit face)] with respect to the
    four vertices, the face indices held fixed. *)
Theorem shortcut_vjp_is_gradient
    (e x : Z) (v_t_entry v_t_exit : R) (g : grad4 R) :
  (0 <= e < 4)%Z -> (0 <= x < 4)%Z ->
  tetra_face_a d v0 v1 v2 v3 e <> 0 ->
  tetra_face_a d v0 v1 v2 v3 x <> 0 ->
  ray_tetra_intersection_vjp_shortcut o d v0 v1 v2 v3 e x
    v_t_entry v_t_exit zero4 = Some g ->
  derivable_pt_lim
    (fun s => v_t_entry * tetra_face_t o d (vadd v0 (smulv s w)) v1 v2 v3 e
              + v_t_exit * tetra_face_t o d (vadd v0 (smulv s w)) v1 v2 v3 x)
    0 (dot (g_v0 g) w) /\
  derivable_pt_lim
    (fun s => v_t_entry * tetra_face_t o d v0 (vadd v1 (smulv s w)) v2 v3 e
              + v_t_exit * tetra_face_t o d v0 (vadd v1 (smulv s w)) v2 v3 x)
    0 (dot (g_v1 g) w) /\
  derivable_pt_lim
    (fun s => v_t_entry * tetra_face_t o d v0 v1 (vadd v2 (smulv s w)) v3 e
              + v_t_exit * tetra_face_t o d v0 v1 (vadd v2 (smulv s w)) v3 x)
    0 (dot (g_v2 g) w) /\
  derivable_pt_lim
    (fun s => v_t_entry * tetra_face_t o d v0 v1 v2 (vadd v3 (smulv s w)) e
              + v_t_exit * tetra_face_t o d v0 v1 v2 (vadd v3 (smulv s w)) x)
    0 (dot (g_v3 g) w).
Proof.
  intros He Hx Hae Hax Hg.
  destruct (both_zero v_t_entry v_t_exit) eqn:Hz.
  - unfold ray_tetra_intersection_vjp_shortcut in Hg.
    unfold both_zero in Hz. rewrite Hz in Hg. injection Hg as <-.
    apply both_zero_real in Hz. destruct Hz as [-> ->].
    unfold zero4. cbn [g_v0 g_v1 g_v2 g_v3]. rewrite dot_zero_l.
    repeat split;
      (eapply derivable_pt_lim_ext; [|apply (deriv_const_fun 0 0)];
       intros z; cbn beta; ring).
  - rewrite (@shortcut_is_sum e x v_t_entry v_t_exit He Hx Hz) in Hg.
    injection Hg as <-.
    apply two_faces_gradient; assumption.
Qed.

Lemma face_hit_real (i : Z) (t : R) :
  face_hit o d v0 v1 v2 v3 i = Some t ->
  tetra_face_a d v0 v1 v2 v3 i <> 0 /\ tetra_face_t o d v0 v1 v2 v3 i = t /\
  on_face (ray_point o d t) v0 v1 v2 v3 i.
Proof.
  unfold face_hit, tetra_face_a, tetra_face_t, on_face.
  destruct (faces v0 v1 v2 v3 i) as [[[a b] c]|]; [|discriminate].
  intros Hhit. pose proof (hit_point _ _ _ _ _ Hhit) as Hpt.
  apply triangle_hit_inv in Hhit.
  destruct Hhit as (Ha & _ & _ & _ & ->).
  split; [apply Rabs_band_nonzero; exact Ha|]. split; [reflexivity|exact Hpt].
Qed.

Lemma vjp_as_shortcut (r : tetra_isct R) (v_t_entry v_t_exit : R)
    (acc : grad4 R) :
  ray_tetra_intersection o d v0 v1 v2 v3 = (true, r) ->
  both_zero v_t_entry v_t_exit = false ->
  ray_tetra_intersection_vjp o d v0 v1 v2 v3 v_t_entry v_t_exit acc
  = ray_tetra_intersection_vjp_shortcut o d v0 v1 v2 v3
      (entry_face_idx r) (exit_face_idx r) v_t_entry v_t_exit zero4.
Proof.
  intros Hfwd Hnz.
  unfold ray_tetra_intersection_vjp, ray_tetra_intersection_vjp_shortcut.
  unfold both_zero in Hnz. rewrite Hnz, Hfwd. reflexivity.
Qed.

(** ** X12: when the forward pass reports a hit with both face indices set
    and some upstream gradient is nonzero, the recomputing vjp returns,
    whatever the accumulators hold on entry, the gradient of
    [v_t_entry * t(entry face) + v_t_exit * t(exit face)] with respect to the
    four vertices, where the [t] of the entry face is the returned [t_entry]
    and the [t] of the exit face the returned [t_exit]. *)
Theorem tetra_vjp_is_gradient
    (r : tetra_isct R) (v_t_entry v_t_exit : R) (acc : grad4 R) :
  ray_tetra_intersection o d v0 v1 v2 v3 = (true, r) ->
  (0 <= entry_face_idx r)%Z -> (0 <= exit_face_idx r)%Z ->
  both_zero v_t_entry v_t_exit = false ->
  let e := entry_face_idx r in
  let x := exit_face_idx r in
  exists g,
    ray_tetra_intersection_vjp o d v0 v1 v2 v3 v_t_entry v_t_exit acc
      = Some g /\
    tetra_face_t o d v0 v1 v2 v3 e = t_entry r /\
    tetra_face_t o d v0 v1 v2 v3 x = t_exit r /\
    derivable_pt_lim
      (fun s => v_t_entry * tetra_face_t o d (vadd v0 (smulv s w)) v1 v2 v3 e
                + v_t_exit * tetra_face_t o d (vadd v0 (smulv s w)) v1 v2 v3 x)
      0 (dot (g_v0 g) w) /\
    derivable_pt_lim
      (fun s => v_t_entry * tetra_face_t o d v0 (vadd v1 (smulv s w)) v2 v3 e
                + v_t_exit * tetra_face_t o d v0 (vadd v1 (smulv s w)) v2 v3 x)
      0 (dot (g_v1 g) w) /\
    derivable_pt_lim
      (fun s => v_t_entry * tetra_face_t o d v0 v1 (vadd v2 (smulv s w)) v3 e
                + v_t_exit * tetra_face_t o d v0 v1 (vadd v2 (smulv s w)) v3 x)
      0 (dot (g_v2 g) w) /\
    derivable_pt_lim
      (fun s => v_t_entry * tetra_face_t o d v0 v1 v2 (vadd v3 (smulv s w)) e
                + v_t_exit * tetra_face_t o d v0 v1 v2 (vadd v3 (smulv s w)) x)
      0 (dot (g_v3 g) w).
Proof.
  intros Hfwd He Hx Hnz e x. subst e x.
  pose proof (tetra_result_ok o d v0 v1 v2 v3) as Hwf.
  rewrite Hfwd in Hwf. destruct Hwf as (We & Wx).
  destruct We as [[We _]|[Wer Weh]]; [lia|].
  destruct Wx as [[Wx _]|[Wxr Wxh]]; [lia|].
  apply face_hit_real in Weh, Wxh.
  destruct Weh as (Hae & Hte & _). destruct Wxh as (Hax & Htx & _).
  rewrite (@vjp_as_shortcut r v_t_entry v_t_exit acc Hfwd Hnz).
  eexists.
  split; [apply (@shortcut_is_sum _ _ v_t_entry v_t_exit Wer Wxr Hnz)|].
  split; [exact Hte|]. split; [exact Htx|].
  apply two_faces_gradient; assumption.
Qed.

(** ** X13: whenever the tetrahedron test returns a face index that is set,
    the point of the ray at the returned [t] lies on that face: the entry
    point on the entry face, the exit point on the exit face. *)
Theorem tetra_entry_exit_points :
  let (hit, r) := ray_tetra_intersection o d v0 v1 v2 v3 in
  ((0 <= entry_face_idx r)%Z ->
   on_face (ray_point o d (t_entry r)) v0 v1 v2 v3 (entry_face_idx r)) /\
  ((0 <= exit_face_idx r)%Z ->
   on_face (ray_point o d (t_exit r)) v0 v1 v2 v3 (exit_face_idx r)).
Proof.
  pose proof (tetra_result_ok o d v0 v1 v2 v3) as Hwf.
  destruct (ray_tetra_intersection o d v0 v1 v2 v3) as [hit r].
  destruct Hwf as (We & Wx). split; intros Hidx.
  - destruct We as [[We _]|[_ Weh]]; [lia|].
    apply face_hit_real in Weh. apply Weh.
  - destruct Wx as [[Wx _]|[_ Wxh]]; [lia|].
    apply face_hit_real in Wxh. apply Wxh.
Qed.
End TetraGradient.

(** ** The integrator: segments, ray parametrisation, range *)

Section IntegratorFacts.
Import RealGeom RealScenario.
Local Open Scope R_scope.
Context {M : MathLib R}.

(** ** X14: an empty segment integrates to 0, and the integrals over two
    adjacent segments add up to the integral over their union; this holds for
    any [sqrtf] and [erff]. *)
Theorem integral_segments
    (ray_o ray_d : vec3 R) (t0 t1 t2 : R) (mean3d : vec3 R)
    (precision : mat3 R) :
  integral ray_o ray_d t0 t0 mean3d precision = 0 /\
  integral ray_o ray_d t0 t1 mean3d precision
  + integral ray_o ray_d t1 t2 mean3d precision
  = integral ray_o ray_d t0 t2 mean3d precision.
Proof.
  unfold integral. rewrite lit_half, lit_0.
  destruct (ltb _ _); cbn [add sub mul div neg RScalar]; split; lra.
Qed.

(** ** X15: sliding the ray origin along the ray by [c] and shifting both
    bounds by [-c] describes the same segment and leaves [integral]
    unchanged. *)
Theorem integral_slide_origin
    (ray_o ray_d : vec3 R) (tmin tmax c : R) (mean3d : vec3 R)
    (precision : mat3 R) :
  integral (vadd ray_o (smulv c ray_d)) ray_d (tmin - c) (tmax - c)
    mean3d precision
  = integral ray_o ray_d tmin tmax mean3d precision.
Proof.
  unfold integral. rewrite lit_eps6, lit_half, lit_0.
  set (aa := dot ray_d (mmulv precision ray_d)).
  change (ltb (/ 1000000) aa) with (Rltb (/ 1000000) aa).
  destruct (Rltb (/ 1000000) aa) eqn:Haa; [|reflexivity].
  apply Rltb_true in Haa.
  assert (Hbb : dot ray_d (mmulv precision
                  (vsub mean3d (vadd ray_o (smulv c ray_d))))
                = dot ray_d (mmulv precision (vsub mean3d ray_o)) - c * aa).
  { subst aa. mdestruct. mreal. ring. }
  rewrite Hbb. cbn [add sub mul div neg RScalar].
  set (bb := dot ray_d (mmulv precision (vsub mean3d ray_o))).
  replace (tmax - c - (bb - c * aa) / aa) with (tmax - bb / aa)
    by (field; lra).
  replace (tmin - c - (bb - c * aa) / aa) with (tmin - bb / aa)
    by (field; lra).
  reflexivity.
Qed.
End IntegratorFacts.

(** ** The opacity integral and its vjp *)

Section Opacity.
Import RealGeom RealScenario.
Local Open Scope R_scope.

Lemma PI_macro_pos : 0 < PI_macro.
Proof. unfold PI_macro. cbn. unfold Q2R. cbn. lra. Qed.

(** The forward value in each branch. *)
Lemma integral_opacity_value
    (density : R) (ray_o ray_d mean3d : vec3 R) (precision : mat3 R) :
  integral_opacity density ray_o ray_d mean3d precision
  = if Reqb density 0 then 0
    else if Rltb (/ 1000000) (opacity_rr ray_d precision)
         then 1 - exp (- density
                       * opacity_integral ray_o ray_d mean3d precision)
         else 0.
Proof.
  unfold integral_opacity, opacity_integral, opacity_cc, opacity_rr.
  rewrite lit_eps6, lit_half, lit_0, lit_1, lit_2. reflexivity.
Qed.

Lemma opacity_integral_pos
    (ray_o ray_d mean3d : vec3 R) (precision : mat3 R) :
  / 1000000 < opacity_rr ray_d precision ->
  0 < opacity_integral ray_o ray_d mean3d precision.
Proof.
  intros Hrr. unfold opacity_integral.
  apply Rmult_lt_0_compat.
  - apply Rmult_lt_0_compat; [lra|apply exp_pos].
  - apply sqrt_lt_R0.
    pose proof PI_macro_pos.
    assert (0 < 1 / opacity_rr ray_d precision).
    { apply Rdiv_lt_0_compat; lra. }
    nra.
Qed.

Lemma exp_nonpos_le_1 (x : R) : x <= 0 -> exp x <= 1.
Proof.
  intros [Hlt| ->].
  - rewrite <- exp_0. left. apply exp_increasing. exact Hlt.
  - rewrite exp_0. lra.
Qed.

(** ** X17: for a density that is not negative, [integral_opacity] is a
    value in [[0, 1]], for any [__expf] whose values are not negative and are
    at most 1 on arguments that are not positive, and any [sqrtf] that is not
    negative on arguments that are not negative. *)
Theorem integral_opacity_range
    (M : MathLib R)
    (density : R) (ray_o ray_d mean3d : vec3 R) (precision : mat3 R) :
  (forall x : R, 0 <= @expf R M x) ->
  (forall x : R, x <= 0 -> @expf R M x <= 1) ->
  (forall x : R, 0 <= x -> 0 <= @sqrtf R M x) ->
  0 <= density ->
  0 <= @integral_opacity R RScalar M density ray_o ray_d mean3d precision
    <= 1.
Proof.
  intros Hexp0 Hexp1 Hsqrt Hd. unfold integral_opacity.
  rewrite lit_eps6, lit_half, lit_0, lit_1, lit_2.
  change (eqb density 0) with (Reqb density 0).
  destruct (Reqb density 0); [lra|].
  set (rr := dot ray_d (mmulv precision ray_d)).
  change (ltb (/ 1000000) rr) with (Rltb (/ 1000000) rr).
  destruct (Rltb (/ 1000000) rr) eqn:Hrr; [|lra].
  apply Rltb_true in Hrr.
  cbn [add sub mul div neg RScalar].
  match goal with
  | |- context [@expf R M (- density * ?I)] => set (Iv := I)
  end.
  assert (HI : 0 <= Iv).
  { subst Iv. apply Rmult_le_pos.
    - apply Rmult_le_pos; [lra|apply Hexp0].
    - apply Hsqrt. pose proof PI_macro_pos.
      assert (0 < 1 / rr) by (apply Rdiv_lt_0_compat; lra).
      nra. }
  pose proof (Hexp0 (- density * Iv)).
  assert (@expf R M (- density * Iv) <= 1) by (apply Hexp1; nra).
  lra.
Qed.

(** ** X18: for a symmetric precision matrix, sliding the ray origin along
    the ray leaves [integral_opacity] unchanged: it integrates over the whole
    line. *)
Theorem integral_opacity_slide_origin
    (density c : R) (ray_o ray_d mean3d : vec3 R) (precision : mat3 R) :
  symmetric3 precision ->
  integral_opacity density (vadd ray_o (smulv c ray_d)) ray_d mean3d precision
  = integral_opacity density ray_o ray_d mean3d precision.
Proof.
  intros Hsym. rewrite !integral_opacity_value.
  destruct (Reqb density 0); [reflexivity|].
  destruct (Rltb (/ 1000000) (opacity_rr ray_d precision)) eqn:Hrr;
    [|reflexivity].
  apply Rltb_true in Hrr.
  assert (Hcc : opacity_cc (vadd ray_o (smulv c ray_d)) ray_d mean3d precision
                = opacity_cc ray_o ray_d mean3d precision).
  { unfold opacity_cc, opacity_rr, symmetric3 in *.
    destruct precision as [[p00 p01 p02] [p10 p11 p12] [p20 p21 p22]].
    cbn [c0 c1 c2 vx vy vz] in Hsym. destruct Hsym as (S1 & S2 & S3).
    subst p10 p20 p21. vdestruct. mreal. field. lra. }
  unfold opacity_integral. rewrite Hcc. reflexivity.
Qed.

(** The backward value past the two guards. *)

Lemma opacity_vjp_value
    (density : R) (ray_o ray_d mean3d : vec3 R) (precision : mat3 R)
    (v_opacity : R) (acc : gauss_grad R) :
  density <> 0 ->
  / 1000000 < opacity_rr ray_d precision ->
  integral_opacity_vjp density ray_o ray_d mean3d precision v_opacity acc
  = let mu := vsub mean3d ray_o in
    let rr := opacity_rr ray_d precision in
    let dr := dot mu (mmulv precision ray_d) in
    let I := opacity_integral ray_o ray_d mean3d precision in
    let op := 1 - exp (- density * I) in
    let v_cc := - / 2 * I * (v_opacity * density * (1 - op)) in
    let v_dr := - 2 * dr * (1 / rr) * v_cc in
    let v_rr := v_cc * (1 / rr) + dr * dr * (1 / rr) * (1 / rr) * v_cc in
    mkgauss_grad
      (vadd (vadd (v_mean3d acc) (vmuls (mmulv precision ray_d) v_dr))
            (vmuls (mmulv (smulm 2 precision) mu) v_cc))
      (madd (madd (madd (v_precision acc)
                        (mmuls (outerProduct ray_d ray_d) v_rr))
                  (mmuls (outerProduct mu ray_d) v_dr))
            (mmuls (outerProduct mu mu) v_cc))
      (v_density acc + v_opacity * I * (1 - op)).
Proof.
  intros Hd Hrr. apply Reqb_false in Hd. apply Rltb_true in Hrr.
  unfold integral_opacity_vjp, opacity_integral, opacity_cc, opacity_rr in *.
  rewrite lit_eps6, lit_half, lit_0, lit_1, lit_2.
  change (eqb density 0) with (Reqb density 0). rewrite Hd.
  match goal with |- context [ltb ?a ?b] => change (ltb a b) with (Rltb a b) end.
  rewrite Hrr. reflexivity.
Qed.

Lemma deriv_scal_r (c : R) (f : R -> R) (x l : R) :
  derivable_pt_lim f x l ->
  derivable_pt_lim (fun y => f y * c) x (l * c).
Proof.
  intros Hf. rewrite (Rmult_comm l c).
  apply derivable_pt_lim_ext with (f := fun y => c * f y).
  - intros z. ring.
  - apply deriv_scal. exact Hf.
Qed.

(** ** X19: past the two guards (density not 0, [rr > 1e-6]), what
    [integral_opacity_vjp] adds to [v_density] is [v_opacity] times the
    derivative of [integral_opacity] with respect to the density. *)
Theorem opacity_vjp_density_gradient
    (density : R) (ray_o ray_d mean3d : vec3 R) (precision : mat3 R)
    (v_opacity : R) :
  density <> 0 ->
  / 1000000 < opacity_rr ray_d precision ->
  derivable_pt_lim
    (fun x => v_opacity * integral_opacity x ray_o ray_d mean3d precision)
    density
    (v_density (integral_opacity_vjp density ray_o ray_d mean3d precision
                  v_opacity zero_gauss)).
Proof.
  intros Hd Hrr. rewrite opacity_vjp_value; [|exact Hd|exact Hrr].
  cbv zeta. cbn [v_density zero_gauss]. rewrite lit_0.
  set (I := opacity_integral ray_o ray_d mean3d precision).
  apply derivable_pt_lim_ext with
    (f := fun x => v_opacity * (1 - exp (0 + - I * x))).
  - intros x. rewrite integral_opacity_value.
    apply Rltb_true in Hrr. rewrite Hrr. fold I.
    destruct (Reqb x 0) eqn:Hx.
    + apply Reqb_true in Hx. subst x.
      rewrite Rmult_0_r, Rplus_0_r, exp_0. ring.
    + do 3 f_equal. ring.
  - replace (0 + v_opacity * I * (1 - (1 - exp (- density * I))))
      with (v_opacity * - (exp (0 + - I * density) * - I))
      by (replace (0 + - I * density) with (- density * I) by ring; ring).
    apply deriv_scal, deriv_one_minus.
    apply (@deriv_exp_comp (fun y => 0 + - I * y)).
    apply deriv_affine.
Qed.

Lemma vadd_smulv_0 (m w : vec3 R) : vadd m (smulv 0 w) = m.
Proof. destruct m, w. apply vec3_eq; vreal; ring. Qed.

(** ** X20: past the two guards and for a symmetric precision matrix, what
    [integral_opacity_vjp] adds to [v_mean3d] is [v_opacity] times the
    gradient of [integral_opacity] with respect to the mean: for every
    direction [w], the derivative along [w] is the dot product with [w]. *)
Theorem opacity_vjp_mean_gradient
    (density : R) (ray_o ray_d mean3d w : vec3 R) (precision : mat3 R)
    (v_opacity : R) :
  symmetric3 precision ->
  density <> 0 ->
  / 1000000 < opacity_rr ray_d precision ->
  derivable_pt_lim
    (fun s => v_opacity
              * integral_opacity density ray_o ray_d
                  (vadd mean3d (smulv s w)) precision)
    0
    (dot (v_mean3d (integral_opacity_vjp density ray_o ray_d mean3d precision
                      v_opacity zero_gauss)) w).
Proof.
  intros Hsym Hd Hrr.
  set (K := sqrt (/ 2 * PI_macro * (1 / opacity_rr ray_d precision))).
  set (q := fun s => opacity_cc ray_o ray_d (vadd mean3d (smulv s w)) precision).
  assert (Hnz : opacity_rr ray_d precision <> 0) by lra.
  assert (Hq : derivable_pt_lim q 0 ((q 1 - q (-1)) / 2)).
  { apply deriv_quadratic. intros s. subst q. cbv beta. clear Hrr K Hsym.
    unfold opacity_cc, opacity_rr in *. mdestruct. mreal. field. exact Hnz. }
  assert (Hq0 : q 0 = opacity_cc ray_o ray_d mean3d precision).
  { subst q. cbv beta. rewrite vadd_smulv_0. reflexivity. }
  apply derivable_pt_lim_ext with
    (f := fun s => v_opacity
                   * (1 - exp (- density * (2 * exp (- / 2 * q s) * K)))).
  { intros s. rewrite integral_opacity_value.
    rewrite (proj2 (Reqb_false density 0) Hd).
    rewrite (proj2 (Rltb_true _ _) Hrr). reflexivity. }
  replace (dot _ w)
    with (v_opacity
          * - (exp (- density * (2 * exp (- / 2 * q 0) * K))
               * (- density
                  * (2 * (exp (- / 2 * q 0) * (- / 2 * ((q 1 - q (-1)) / 2)))
                     * K)))).
  { apply deriv_scal, deriv_one_minus.
    apply (@deriv_exp_comp (fun s => - density * (2 * exp (- / 2 * q s) * K))).
    apply deriv_scal.
    apply (@deriv_scal_r K (fun s => 2 * exp (- / 2 * q s))).
    apply deriv_scal.
    apply (@deriv_exp_comp (fun s => - / 2 * q s)).
    apply deriv_scal. exact Hq. }
  rewrite opacity_vjp_value; [|exact Hd|exact Hrr].
  cbv zeta. cbn [v_mean3d zero_gauss]. rewrite Hq0.
  unfold opacity_integral. fold K.
  set (E1 := exp (- / 2 * opacity_cc ray_o ray_d mean3d precision)).
  set (E2 := exp (- density * (2 * E1 * K))).
  clearbody E1 E2 K. clear Hq Hq0 Hrr. subst q. cbv beta.
  unfold opacity_cc, opacity_rr, symmetric3 in *.
  destruct precision as [[p00 p01 p02] [p10 p11 p12] [p20 p21 p22]].
  cbn [c0 c1 c2 vx vy vz] in Hsym. destruct Hsym as (S1 & S2 & S3).
  subst p10 p20 p21. vdestruct. mreal. field. exact Hnz.
Qed.

Lemma guard_stays_open (rr rW : R) :
  / 1000000 < rr ->
  exists delta, 0 < delta /\
    forall z, - delta < z < delta -> / 1000000 < rr + rW * z.
Proof.
  intros Hrr.
  exists ((rr - / 1000000) / (Rabs rW + 1)).
  pose proof (Rabs_pos rW) as Habs.
  assert (Hden : 0 < Rabs rW + 1) by lra.
  split; [apply Rdiv_lt_0_compat; lra|].
  intros z Hz.
  set (delta := (rr - / 1000000) / (Rabs rW + 1)) in *.
  assert (Hdelta : delta * (Rabs rW + 1) = rr - / 1000000).
  { subst delta. field. lra. }
  assert (Hz' : Rabs z < delta) by (apply Rabs_def1; lra).
  assert (Hprod : Rabs (rW * z) <= Rabs rW * delta).
  { rewrite Rabs_mult. apply Rmult_le_compat_l; [exact Habs|lra]. }
  pose proof (Rle_abs (- (rW * z))) as Hle. rewrite Rabs_Ropp in Hle.
  pose proof (Rabs_pos z).
  nra.
Qed.

Lemma dot_moved_precision (a b : vec3 R) (P W : mat3 R) (z : R) :
  dot a (mmulv (madd P (mmuls W z)) b)
  = dot a (mmulv P b) + dot a (mmulv W b) * z.
Proof. mdestruct. mreal. ring. Qed.

Lemma mdot_outer (c r : vec3 R) (k : R) (W : mat3 R) :
  mdot (mmuls (outerProduct c r) k) W = k * dot c (mmulv W r).
Proof. unfold mdot. mdestruct. mreal. ring. Qed.

Lemma mdot_madd (A B W : mat3 R) : mdot (madd A B) W = mdot A W + mdot B W.
Proof. unfold mdot. mdestruct. mreal. ring. Qed.

Lemma mdot_zero (W : mat3 R) :
  mdot (mkmat3 (vsplat (lit 0)) (vsplat (lit 0)) (vsplat (lit 0))) W = 0.
Proof. unfold mdot. mdestruct. mreal. ring. Qed.

(** ** X21: past the two guards, what [integral_opacity_vjp] adds to
    [v_precision] is [v_opacity] times the gradient of [integral_opacity] with
    respect to the nine entries of the precision matrix: for every matrix
    direction [W], the derivative along [W] is the entry-wise product sum with
    [W].  No symmetry is assumed. *)
Theorem opacity_vjp_precision_gradient
    (density : R) (ray_o ray_d mean3d : vec3 R) (precision W : mat3 R)
    (v_opacity : R) :
  density <> 0 ->
  / 1000000 < opacity_rr ray_d precision ->
  derivable_pt_lim
    (fun s => v_opacity
              * integral_opacity density ray_o ray_d mean3d
                  (madd precision (mmuls W s)))
    0
    (mdot (v_precision (integral_opacity_vjp density ray_o ray_d mean3d
                          precision v_opacity zero_gauss)) W).
Proof.
  intros Hd Hrr.
  rewrite opacity_vjp_value; [|exact Hd|exact Hrr].
  cbv zeta. cbn [v_precision zero_gauss].
  rewrite !mdot_madd, !mdot_outer, mdot_zero.
  unfold opacity_integral, opacity_cc, opacity_rr in *.
  set (mu := vsub mean3d ray_o).
  set (rr := dot ray_d (mmulv precision ray_d)) in *.
  set (dr := dot mu (mmulv precision ray_d)).
  set (dd := dot mu (mmulv precision mu)).
  set (rW := dot ray_d (mmulv W ray_d)).
  set (drW := dot mu (mmulv W ray_d)).
  set (ddW := dot mu (mmulv W mu)).
  set (c := / 2 * PI_macro).
  set (F := fun z =>
    v_opacity
    * (1 - exp (- density
                * (2 * exp (- / 2 * ((dd + ddW * z)
                                     - (dr + drW * z) * (dr + drW * z)
                                       * (1 / (rr + rW * z))))
                   * sqrt (c * (1 / (rr + rW * z))))))).
  destruct (guard_stays_open rW Hrr) as (delta & Hdelta & Hguard).
  apply derivable_pt_lim_locally_ext with (f := F) (a := - delta) (b := delta).
  { lra. }
  { intros z Hz. subst F. cbv beta.
    rewrite integral_opacity_value.
    rewrite (proj2 (Reqb_false density 0) Hd).
    unfold opacity_integral, opacity_cc, opacity_rr.
    rewrite !dot_moved_precision.
    fold mu. fold rr dr dd rW drW ddW c.
    rewrite (proj2 (Rltb_true _ _) (Hguard z Hz)).
    reflexivity. }
  assert (Hpos : 0 < rr) by lra.
  assert (Hcpos : 0 < c).
  { subst c. pose proof PI_macro_pos. lra. }
  eapply deriv_limit_eq.
  - subst F.
    apply deriv_scal, deriv_one_minus.
    apply (@deriv_exp_comp (fun z => - density * _)).
    apply deriv_scal.
    apply (@deriv_mult (fun z => 2 * exp _) (fun z => sqrt _)).
    + apply deriv_scal.
      apply (@deriv_exp_comp (fun z => - / 2 * _)).
      apply deriv_scal.
      apply (@deriv_minus (fun z => dd + ddW * z)
               (fun z => (dr + drW * z) * (dr + drW * z)
                         * (1 / (rr + rW * z)))).
      * apply deriv_affine.
      * apply (@deriv_mult (fun z => (dr + drW * z) * (dr + drW * z))
                 (fun z => 1 / (rr + rW * z))).
        -- apply (@deriv_mult (fun z => dr + drW * z)
                    (fun z => dr + drW * z)); apply deriv_affine.
        -- apply (@deriv_inv (fun z => rr + rW * z)); [apply deriv_affine|].
           lra.
    + apply (@deriv_sqrt_comp (fun z => c * (1 / (rr + rW * z)))).
      * apply deriv_scal.
        apply (@deriv_inv (fun z => rr + rW * z)); [apply deriv_affine|].
        lra.
      * cbv beta. rewrite Rmult_0_r, Rplus_0_r.
        apply Rmult_lt_0_compat; [exact Hcpos|].
        apply Rdiv_lt_0_compat; lra.
  - cbv beta. rewrite !Rmult_0_r, !Rplus_0_r.
    assert (HK0 : 0 < c * (1 / rr)).
    { apply Rmult_lt_0_compat; [exact Hcpos|apply Rdiv_lt_0_compat; lra]. }
    pose proof (sqrt_lt_R0 _ HK0) as HKpos.
    pose proof (sqrt_sqrt (c * (1 / rr)) (Rlt_le _ _ HK0)) as HK.
    set (K := sqrt (c * (1 / rr))) in *.
    set (E1 := exp (- / 2 * (dd - dr * dr * (1 / rr)))).
    set (E2 := exp (- density * (2 * E1 * K))).
    assert (Hc : c = K * K * rr).
    { rewrite HK. field. lra. }
    clearbody K E1 E2 c. subst c. unfold Rsqr. field. lra.
Qed.

(** ** X22: at density exactly 0 (and [rr > 1e-6]) the forward value has a
    derivative in the density, the positive number [_integral], but
    [integral_opacity_vjp] returns at once and adds nothing to any
    accumulator: the density receives no gradient there. *)
Theorem opacity_vjp_zero_density
    (ray_o ray_d mean3d : vec3 R) (precision : mat3 R)
    (v_opacity : R) (acc : gauss_grad R) :
  / 1000000 < opacity_rr ray_d precision ->
  derivable_pt_lim
    (fun x => integral_opacity x ray_o ray_d mean3d precision) 0
    (opacity_integral ray_o ray_d mean3d precision) /\
  0 < opacity_integral ray_o ray_d mean3d precision /\
  integral_opacity_vjp 0 ray_o ray_d mean3d precision v_opacity acc = acc.
Proof.
  intros Hrr. split; [|split].
  - set (I := opacity_integral ray_o ray_d mean3d precision).
    apply derivable_pt_lim_ext with (f := fun x => 1 - exp (0 + - I * x)).
    + intros x. rewrite integral_opacity_value.
      rewrite (proj2 (Rltb_true _ _) Hrr). fold I.
      destruct (Reqb x 0) eqn:Hx.
      * apply Reqb_true in Hx. subst x.
        rewrite Rmult_0_r, Rplus_0_r, exp_0. ring.
      * do 2 f_equal. ring.
    + eapply deriv_limit_eq.
      * apply deriv_one_minus.
        apply (@deriv_exp_comp (fun y => 0 + - I * y)).
        apply deriv_affine.
      * cbv beta. rewrite Rmult_0_r, Rplus_0_r, exp_0. ring.
  - apply opacity_integral_pos. exact Hrr.
  - unfold integral_opacity_vjp. rewrite lit_0.
    change (eqb 0 0) with (Reqb 0 0).
    rewrite (proj2 (Reqb_true 0 0) eq_refl). reflexivity.
Qed.
End Opacity.

(** ** The segment integral with the real error function *)

Section ErrorFunction.
Import RealGeom RealScenario.
Local Open Scope R_scope.

Lemma gauss_pos (t : R) : 0 <= gauss t.
Proof. unfold gauss. left. apply exp_pos. Qed.

Lemma gauss_integral_nonneg (a b : R) :
  a <= b -> 0 <= RiemannInt (gauss_integrable a b).
Proof.
  intros Hab.
  rewrite <- (Rmult_0_l (b - a)).
  rewrite <- (RiemannInt_P15 (RiemannInt_P14 a b 0)).
  apply RiemannInt_P19; [exact Hab|].
  intros x _. unfold fct_cte. apply gauss_pos.
Qed.

Lemma erf_increasing (x y : R) : x <= y -> erf x <= erf y.
Proof.
  intros Hxy. unfold erf.
  rewrite <- (RiemannInt_P26 (gauss_integrable 0 x) (gauss_integrable x y)
                (gauss_integrable 0 y)).
  pose proof (gauss_integral_nonneg Hxy) as Hnn.
  assert (Hc : 0 < 2 / sqrt PI).
  { apply Rdiv_lt_0_compat; [lra|apply sqrt_lt_R0, PI_RGT_0]. }
  nra.
Qed.

(** The value of [integral] in each branch. *)
Lemma integral_value
    (ray_o ray_d : vec3 R) (tmin tmax : R) (mean3d : vec3 R)
    (precision : mat3 R) :
  integral ray_o ray_d tmin tmax mean3d precision
  = let a := opacity_rr ray_d precision in
    let b2 := dot ray_d (mmulv precision (vsub mean3d ray_o)) / a in
    if Rltb (/ 1000000) a
    then / 2 * (erf (sqrt (a * / 2) * (tmax - b2))
                - erf (sqrt (a * / 2) * (tmin - b2)))
    else 0.
Proof.
  unfold integral, opacity_rr. rewrite lit_eps6, lit_half, lit_0.
  reflexivity.
Qed.

(** ** X16: with the real error function, [integral] is not negative for
    [tmin <= tmax] and does not decrease when the segment grows. *)
Theorem integral_monotone
    (ray_o ray_d : vec3 R) (tmin tmax tmin' tmax' : R) (mean3d : vec3 R)
    (precision : mat3 R) :
  tmin' <= tmin -> tmin <= tmax -> tmax <= tmax' ->
  0 <= integral ray_o ray_d tmin tmax mean3d precision
    <= integral ray_o ray_d tmin' tmax' mean3d precision.
Proof.
  intros H1 H2 H3. rewrite !integral_value. cbv zeta.
  destruct (Rltb (/ 1000000) (opacity_rr ray_d precision)); [|lra].
  set (b1 := sqrt (opacity_rr ray_d precision * / 2)).
  set (b2 := dot ray_d (mmulv precision (vsub mean3d ray_o))
             / opacity_rr ray_d precision).
  assert (Hb1 : 0 <= b1) by (apply sqrt_pos).
  assert (E1 : erf (b1 * (tmin - b2)) <= erf (b1 * (tmax - b2))).
  { apply erf_increasing. nra. }
  assert (E2 : erf (b1 * (tmin' - b2)) <= erf (b1 * (tmin - b2))).
  { apply erf_increasing. nra. }
  assert (E3 : erf (b1 * (tmax - b2)) <= erf (b1 * (tmax' - b2))).
  { apply erf_increasing. nra. }
  lra.
Qed.
End ErrorFunction.

(** ** [sign] *)

Section Sign.
Local Open Scope R_scope.

Lemma sign_real (x : R) :
  (0 < x -> sign x = 1%Z) /\ (x < 0 -> sign x = (-1)%Z) /\
  (x = 0 -> sign x = 0%Z).
Proof.
  unfold sign. rewrite lit_0. cbn [ltb RScalar].
  repeat split; intros Hx.
  - rewrite (proj2 (Rltb_true 0 x)), (proj2 (Rltb_false x 0)) by lra.
    reflexivity.
  - rewrite (proj2 (Rltb_false 0 x)), (proj2 (Rltb_true x 0)) by lra.
    reflexivity.
  - rewrite (proj2 (Rltb_false 0 x)), (proj2 (Rltb_false x 0)) by lra.
    reflexivity.
Qed.

(** ** X23: over the reals [sign] is multiplicative and odd:
    [sign (x * y) = sign x * sign y] and [sign (- x) = - sign x]. *)
Theorem sign_multiplicative (x y : R) :
  sign (x * y) = (sign x * sign y)%Z /\ sign (- x) = (- sign x)%Z.
Proof.
  destruct (sign_real x) as (Px & Nx & Zx).
  destruct (sign_real y) as (Py & Ny & Zy).
  destruct (sign_real (x * y)) as (Pxy & Nxy & Zxy).
  destruct (sign_real (- x)) as (Pm & Nm & Zm).
  destruct (Rtotal_order x 0) as [Hx|[Hx|Hx]];
  destruct (Rtotal_order y 0) as [Hy|[Hy|Hy]];
    rewrite ?(Px ltac:(lra)), ?(Nx ltac:(lra)), ?(Zx ltac:(lra)),
            ?(Py ltac:(lra)), ?(Ny ltac:(lra)), ?(Zy ltac:(lra)),
            ?(Pm ltac:(lra)), ?(Nm ltac:(lra)), ?(Zm ltac:(lra)),
            ?(Pxy ltac:(nra)), ?(Nxy ltac:(nra)), ?(Zxy ltac:(nra));
    split; reflexivity.
Qed.
End Sign.

(** ** The further properties at concrete inputs *)

Section FurtherExamples.
Import QInst Scenario.

(** X8 at the scenario of the unit tetrahedron. *)
Lemma tetra_vjp_in_bounds_witness :
  exists g,
    ray_tetra_intersection_vjp ray_o ray_d V0 V1 V2 V3 1 1 zero4 = Some g.
Proof.
  apply (tetra_vjp_in_bounds (T := Q) ray_o ray_d V0 V1 V2 V3 1 1 zero4).
  intros i t Hhit.
  pose proof (face_hit_range _ _ _ _ _ _ _ Hhit) as Hi.
  assert (Hc : (i = 0 \/ i = 1 \/ i = 2 \/ i = 3)%Z) by lia.
  destruct Hc as [Hc|[Hc|[Hc|Hc]]]; subst i; vm_compute in Hhit;
    try discriminate; injection Hhit as <-; split; reflexivity.
Defined.

(** X9 at the same scenario: a hit, and [t_exit = 2] is not below
    [t_entry = 1.2]. *)
Lemma tetra_hit_iff_ordered_witness :
  true = true <-> ltb (2 : Q) (6 # 5) = false.
Proof.
  pose proof (tetra_hit_iff_ordered (T := Q) ray_o ray_d V0 V1 V2 V3) as Hthm.
  replace (ray_tetra_intersection ray_o ray_d V0 V1 V2 V3)
    with (true, mktetra_isct 1 0 (6 # 5) (2 : Q)) in Hthm
    by (vm_compute; reflexivity).
  exact Hthm.
Defined.
End FurtherExamples.

Section FurtherRealExamples.
Import RealSpec RealGeom RealScenario.
Local Open Scope R_scope.

Lemma below_a : triangle_a down_d tri_v0 tri_v1 tri_v2 = 1.
Proof. unfold down_d, tri_v0, tri_v1, tri_v2. vreal. ring. Qed.

Lemma below_a_twice : triangle_a (smulv 2 down_d) tri_v0 tri_v1 tri_v2 = 2.
Proof. unfold down_d, tri_v0, tri_v1, tri_v2. vreal. ring. Qed.

(** X4 on the ray below the triangle, with the direction doubled. *)
Lemma triangle_direction_scaling_witness :
  ray_triangle_intersection below_o (smulv 2 down_d) tri_v0 tri_v1 tri_v2
  = option_map (fun t => t / 2)
      (ray_triangle_intersection below_o down_d tri_v0 tri_v1 tri_v2).
Proof.
  apply triangle_direction_scaling.
  - lra.
  - rewrite below_a, Rabs_R1. lra.
  - rewrite below_a_twice, Rabs_right; lra.
Defined.

(** X5 on the same triangle, moving each vertex along z. *)
Lemma triangle_vjp_is_gradient_witness :
  let g := ray_triangle_intersection_vjp below_o down_d tri_v0 tri_v1 tri_v2
             1 zero3 in
  derivable_pt_lim
    (fun x => 1 * triangle_t below_o down_d
                    (vadd tri_v0 (smulv x unit_z)) tri_v1 tri_v2)
    0 (dot (grad_v0 g) unit_z) /\
  derivable_pt_lim
    (fun x => 1 * triangle_t below_o down_d
                    tri_v0 (vadd tri_v1 (smulv x unit_z)) tri_v2)
    0 (dot (grad_v1 g) unit_z) /\
  derivable_pt_lim
    (fun x => 1 * triangle_t below_o down_d
                    tri_v0 tri_v1 (vadd tri_v2 (smulv x unit_z)))
    0 (dot (grad_v2 g) unit_z).
Proof.
  apply (@triangle_vjp_is_gradient below_o down_d tri_v0 tri_v1 tri_v2 unit_z
            1 zero3).
  rewrite below_a. lra.
Defined.

(** The example ray against the four faces of the unit tetrahedron. *)
Lemma real_face_a :
  tetra_face_a real_d U0 U1 U2 U3 0 = 1 /\
  tetra_face_a real_d U0 U1 U2 U3 1 = 1 /\
  tetra_face_a real_d U0 U1 U2 U3 2 = 0 /\
  tetra_face_a real_d U0 U1 U2 U3 3 = 0.
Proof.
  unfold tetra_face_a, real_d, U0, U1, U2, U3. cbn [faces].
  repeat split; vreal; ring.
Qed.

Lemma real_face_hits :
  face_hit real_o real_d U0 U1 U2 U3 0 = Some 2 /\
  face_hit real_o real_d U0 U1 U2 U3 1 = Some (6 / 5) /\
  face_hit real_o real_d U0 U1 U2 U3 2 = None /\
  face_hit real_o real_d U0 U1 U2 U3 3 = None.
Proof.
  destruct real_face_a as (A0 & A1 & A2 & A3).
  unfold tetra_face_a in *. unfold face_hit. cbn [faces] in *.
  pose proof epsilon_f32_bounds as Hb.
  split; [|split; [|split]].
  - apply point_hit; [rewrite A0, Rabs_R1; lra|].
    exists (/ 10), (/ 10). repeat split; try lra.
    unfold ray_point, real_o, real_d, U0, U1, U2.
    apply vec3_eq; vreal; lra.
  - apply point_hit; [rewrite A1, Rabs_R1; lra|].
    exists (/ 10), (8 / 10). repeat split; try lra.
    unfold ray_point, real_o, real_d, U1, U2, U3.
    apply vec3_eq; vreal; lra.
  - destruct (ray_triangle_intersection real_o real_d U2 U3 U0) as [t|] eqn:E;
      [exfalso|reflexivity].
    apply triangle_hit_inv in E. destruct E as (Ha & _).
    rewrite A2, Rabs_R0 in Ha. lra.
  - destruct (ray_triangle_intersection real_o real_d U3 U0 U1) as [t|] eqn:E;
      [exfalso|reflexivity].
    apply triangle_hit_inv in E. destruct E as (Ha & _).
    rewrite A3, Rabs_R0 in Ha. lra.
Qed.

Lemma tetra_step_miss (o d v0 v1 v2 v3 : vec3 R) (r : tetra_isct R) (i : Z) :
  face_hit o d v0 v1 v2 v3 i = None -> tetra_step o d v0 v1 v2 v3 r i = r.
Proof. unfold tetra_step. intros ->. reflexivity. Qed.

Lemma lit_big : lit 10000000000 = 10000000000.
Proof. cbn. unfold Q2R. cbn. lra. Qed.

(** The forward pass on the example ray: in through face 1 at [t = 1.2], out
    through face 0 at [t = 2]. *)
Lemma real_scenario_result :
  ray_tetra_intersection real_o real_d U0 U1 U2 U3
  = (true, mktetra_isct 1 0 (6 / 5) 2).
Proof.
  destruct real_face_hits as (H0 & H1 & H2 & H3).
  unfold ray_tetra_intersection. cbn [fold_left].
  assert (S0 : tetra_step real_o real_d U0 U1 U2 U3 tetra_init 0
               = mktetra_isct 0 0 2 2).
  { unfold tetra_step. rewrite H0. unfold tetra_init.
    cbn [t_entry t_exit entry_face_idx exit_face_idx ltb neg RScalar].
    rewrite lit_big.
    rewrite (proj2 (Rltb_true 2 10000000000)) by lra.
    cbn [t_entry t_exit entry_face_idx exit_face_idx].
    rewrite (proj2 (Rltb_true _ 2)) by lra.
    reflexivity. }
  rewrite S0.
  assert (S1 : tetra_step real_o real_d U0 U1 U2 U3 (mktetra_isct 0 0 2 2) 1
               = mktetra_isct 1 0 (6 / 5) 2).
  { unfold tetra_step. rewrite H1.
    cbn [t_entry t_exit entry_face_idx exit_face_idx ltb RScalar].
    rewrite (proj2 (Rltb_true (6 / 5) 2)) by lra.
    cbn [t_entry t_exit entry_face_idx exit_face_idx].
    rewrite (proj2 (Rltb_false 2 (6 / 5))) by lra.
    reflexivity. }
  rewrite S1.
  rewrite tetra_step_miss by exact H3.
  rewrite tetra_step_miss by exact H2.
  reflexivity.
Qed.

Lemma one_one_not_zero : both_zero (1 : R) 1 = false.
Proof.
  unfold both_zero. cbn [eqb RScalar].
  rewrite (proj2 (Reqb_false 1 (lit 0))); [reflexivity|].
  rewrite lit_0. lra.
Qed.

(** X11 on the example ray, with the indices of its forward pass, moving each
    vertex along z. *)
Lemma shortcut_vjp_is_gradient_witness :
  exists g,
    ray_tetra_intersection_vjp_shortcut real_o real_d U0 U1 U2 U3 1 0 1 1
      zero4 = Some g /\
    derivable_pt_lim
      (fun s =>
         1 * tetra_face_t real_o real_d (vadd U0 (smulv s unit_z)) U1 U2 U3 1
         + 1 * tetra_face_t real_o real_d (vadd U0 (smulv s unit_z)) U1 U2 U3
                 0)
      0 (dot (g_v0 g) unit_z).
Proof.
  destruct real_face_a as (A0 & A1 & _).
  assert (Hg : ray_tetra_intersection_vjp_shortcut real_o real_d U0 U1 U2 U3
                 1 0 1 1 zero4
               = Some (grad4_add (face_grad real_o real_d U0 U1 U2 U3 1 1)
                                 (face_grad real_o real_d U0 U1 U2 U3 0 1))).
  { apply shortcut_is_sum; [lia|lia|apply one_one_not_zero]. }
  eexists. split; [exact Hg|].
  assert (He : (0 <= 1 < 4)%Z) by lia.
  assert (Hx : (0 <= 0 < 4)%Z) by lia.
  assert (Ae : tetra_face_a real_d U0 U1 U2 U3 1 <> 0) by (rewrite A1; lra).
  assert (Ax : tetra_face_a real_d U0 U1 U2 U3 0 <> 0) by (rewrite A0; lra).
  destruct (@shortcut_vjp_is_gradient real_o real_d U0 U1 U2 U3 unit_z
              1 0 1 1 _ He Hx Ae Ax Hg) as (D0 & _).
  exact D0.
Defined.

(** X12 on the example ray. *)
Lemma tetra_vjp_is_gradient_witness :
  exists g,
    ray_tetra_intersection_vjp real_o real_d U0 U1 U2 U3 1 1 zero4 = Some g /\
    tetra_face_t real_o real_d U0 U1 U2 U3 1 = 6 / 5 /\
    tetra_face_t real_o real_d U0 U1 U2 U3 0 = 2.
Proof.
  destruct (@tetra_vjp_is_gradient real_o real_d U0 U1 U2 U3 unit_z _ 1 1
              zero4 real_scenario_result)
    as (g & Hg & He & Hx & _).
  - cbn. lia.
  - cbn. lia.
  - apply one_one_not_zero.
  - exists g. split; [exact Hg|]. split; [exact He|exact Hx].
Defined.

Lemma unit_rr : opacity_rr unit_z identity3 = 1.
Proof. unfold opacity_rr, unit_z, identity3. mreal. ring. Qed.

Lemma identity3_symmetric : symmetric3 identity3.
Proof. unfold symmetric3, identity3. cbn. repeat split. Qed.

(** X16 on the standard Gaussian at the origin, along z. *)
Lemma integral_monotone_witness :
  0 <= integral origin unit_z (-1) 1 origin identity3
    <= integral origin unit_z (-2) 2 origin identity3.
Proof. apply integral_monotone; lra. Defined.

(** X17 on the same Gaussian with density 1. *)
Lemma integral_opacity_range_witness :
  0 <= integral_opacity 1 origin unit_z origin identity3 <= 1.
Proof.
  apply (@integral_opacity_range RMath).
  - intros x. left. apply exp_pos.
  - apply exp_nonpos_le_1.
  - intros x _. apply sqrt_pos.
  - lra.
Defined.

(** C4 as worded fails on the grazing ray: its determinant is the value of
    [1e-8f], which is below 1e-8, and the test reports a hit. *)
Lemma graze_ray_hit :
  ~ triangle_branches graze_o graze_d tri_v0 tri_v1 tri_v2.
Proof.
  assert (Ea : triangle_a graze_d tri_v0 tri_v1 tri_v2 = epsilon_f32).
  { unfold graze_d, tri_v0, tri_v1, tri_v2. vreal. ring. }
  pose proof epsilon_f32_bounds as [Hpos Hlt].
  assert (Hhit : ray_triangle_intersection graze_o graze_d tri_v0 tri_v1 tri_v2
                 = Some (/ epsilon_f32)).
  { apply point_hit.
    - rewrite Ea, Rabs_right; lra.
    - exists (/ 4), (/ 4). repeat split; try lra.
      unfold ray_point, graze_o, graze_d, tri_v0, tri_v1, tri_v2.
      apply vec3_eq; vreal; field; lra. }
  unfold triangle_branches, triangle_branches_at. cbv zeta.
  intros (Hpar & _). unfold triangle_a in Ea. rewrite Ea in Hpar.
  rewrite Hpar in Hhit; [discriminate|].
  rewrite Rabs_right; lra.
Qed.

(** X18 on the same Gaussian, the origin moved by 3 along the ray. *)
Lemma integral_opacity_slide_origin_witness :
  integral_opacity 1 (vadd origin (smulv 3 unit_z)) unit_z origin identity3
  = integral_opacity 1 origin unit_z origin identity3.
Proof.
  apply integral_opacity_slide_origin. apply identity3_symmetric.
Defined.

(** X19 on the same Gaussian. *)
Lemma opacity_vjp_density_gradient_witness :
  derivable_pt_lim
    (fun x => 1 * integral_opacity x origin unit_z origin identity3) 1
    (v_density (integral_opacity_vjp 1 origin unit_z origin identity3 1
                  zero_gauss)).
Proof.
  apply opacity_vjp_density_gradient; [lra|rewrite unit_rr; lra].
Defined.

(** X20 on the same Gaussian, moving the mean along z. *)
Lemma opacity_vjp_mean_gradient_witness :
  derivable_pt_lim
    (fun s => 1 * integral_opacity 1 origin unit_z
                    (vadd origin (smulv s unit_z)) identity3)
    0
    (dot (v_mean3d (integral_opacity_vjp 1 origin unit_z origin identity3 1
                      zero_gauss)) unit_z).
Proof.
  apply opacity_vjp_mean_gradient;
    [apply identity3_symmetric|lra|rewrite unit_rr; lra].
Defined.

(** X21 on the same Gaussian, moving the precision along the identity. *)
Lemma opacity_vjp_precision_gradient_witness :
  derivable_pt_lim
    (fun s => 1 * integral_opacity 1 origin unit_z origin
                    (madd identity3 (mmuls identity3 s)))
    0
    (mdot (v_precision (integral_opacity_vjp 1 origin unit_z origin
                          identity3 1 zero_gauss)) identity3).
Proof.
  apply opacity_vjp_precision_gradient; [lra|rewrite unit_rr; lra].
Defined.

(** X22 on the same Gaussian. *)
Lemma opacity_vjp_zero_density_witness :
  derivable_pt_lim
    (fun x => integral_opacity x origin unit_z origin identity3) 0
    (opacity_integral origin unit_z origin identity3) /\
  0 < opacity_integral origin unit_z origin identity3 /\
  integral_opacity_vjp 0 origin unit_z origin identity3 1 stale_gauss
  = stale_gauss.
Proof.
  apply opacity_vjp_zero_density. rewrite unit_rr. lra.
Defined.
End FurtherRealExamples.
